(** * The hypsys miniapp: serial and parallel drivers, and the limited
      evolution operator they drive.

    [miniapps/hypsys/hypsys.cpp] and [miniapps/hypsys/phypsys.cpp] are the
    two [main] functions of the miniapp.  They parse the command line, pick
    an explicit ODE solver and a hyperbolic system, march the solution in
    time and print diagnostics.  Both are embedded here as one function
    [main], indexed by the [Driver] that tells the two files apart.

    A C++ [double] is idealised as an exact rational ([Q]); an [int] is an
    integer ([Z]) inside the range of the type.  The classes the drivers
    only use (option parser, mesh and spaces, ODE solvers, the evolution
    operator, the hyperbolic system) come from [lib/] and from the library;
    what the drivers need of them is collected in the record
    [Collaborators]. *)

From Stdlib Require Import ZArith QArith Qminmax Qabs List Bool Lia Lqa String.
Import ListNotations.

Local Open Scope Q_scope.

(** ** Scalars and vectors *)

(** [a < b] on doubles, as a boolean *)
Definition Qltb (a b : Q) : bool := negb (Qle_bool b a).

(** [std::min(a, b)]: [(b < a) ? b : a] *)
Definition min (a b : Q) : Q := if Qltb b a then b else a.

(** [mfem::Vector] *)
Definition Vector := list Q.

(** [Vector::Sum()] *)
Definition Sum (v : Vector) : Q := fold_right Qplus 0 v.

(** [double operator*(const Vector &)]: the inner product *)
Definition dot (a b : Vector) : Q :=
  Sum (map (fun p => fst p * snd p) (combine a b)).

(** [v.SetSize(n); v = 0.;] *)
Definition zeros (n : nat) : Vector := repeat 0 n.

(** ** Configuration and command line *)

(** [struct Configuration] (the fields the drivers set; the bounding box
    is filled in from the mesh and only read by the hyperbolic system) *)
Record Configuration := mkConfiguration {
  ProblemNum : Z;
  ConfigNum : Z;
  order : Z;
  tFinal : Q;
  dt : Q;
  odeSolverType : Z;
  VisSteps : Z;
  precision : Z
}.

(** [enum EvolutionScheme]: the option text of the drivers gives
    [0 - Standard Finite Element Approximation] and
    [1 - Monolithic Convex Limiting].  The drivers write the option through
    an [int*], so the variable holds whatever integer was given. *)
Definition EvolutionScheme := Z.
Definition Standard : EvolutionScheme := 0%Z.
Definition MCL : EvolutionScheme := 1%Z.

(** the variables of [main] that the option parser may overwrite *)
Record Options := mkOptions {
  config : Configuration;
  MeshFile : string;
  refinements : Z;
  prefinements : Z;
  scheme : EvolutionScheme
}.

(** the values assigned at the top of [main] *)
Definition defaults : Options :=
  {| config := {| ProblemNum := 0; ConfigNum := 1; order := 3;
                  tFinal := 1; dt := 1 # 1000; odeSolverType := 3;
                  VisSteps := 100; precision := 8 |};
     MeshFile := "data/unstr.mesh";
     refinements := 1;
     prefinements := 0;
     scheme := Standard |}.

(** the two files *)
Inductive Driver :=
| Serial                 (* hypsys.cpp *)
| Parallel (myid : Z).   (* phypsys.cpp, on the rank [myid] *)

(** [myid == 0]; the serial driver prints unconditionally *)
Definition root (d : Driver) : bool :=
  match d with
  | Serial => true
  | Parallel myid => (myid =? 0)%Z
  end.

(** One command-line option with its parsed value, named after the
    [AddOption] call that registers it. *)
Inductive Arg :=
| ArgProblem (n : Z)            (* -p,  --problem *)
| ArgConfiguration (n : Z)      (* -c,  --configuration *)
| ArgMesh (f : string)          (* -m,  --mesh *)
| ArgRefine (n : Z)             (* -r,  --refine *)
| ArgParallelRefine (n : Z)     (* -pr, --parallel-refine (phypsys only) *)
| ArgOrder (n : Z)              (* -o,  --order *)
| ArgTFinal (x : Q)             (* -tf, --t-final *)
| ArgTimeStep (x : Q)           (* -dt, --time-step *)
| ArgODESolver (n : Z)          (* -s,  --ode-solver *)
| ArgVisSteps (n : Z)           (* -vs, --visualization-steps *)
| ArgScheme (n : Z)             (* -e,  --EvolutionScheme *)
| ArgHelp                       (* -h,  --help *)
| ArgUnknown (s : string).      (* anything that is not registered *)

Definition set_config (f : Configuration -> Configuration) (o : Options)
  : Options :=
  {| config := f (config o); MeshFile := MeshFile o;
     refinements := refinements o; prefinements := prefinements o;
     scheme := scheme o |}.

(** Modelled from the spec: the option parser ([OptionsParser], general/
    optparser.cpp) is an external collaborator; each registered option
    overwrites the variable whose address was given to [AddOption], and
    anything else (help included) leaves the parser not [Good()]. *)
Definition store (d : Driver) (a : Arg) (o : Options) : option Options :=
  match a with
  | ArgProblem n =>
      Some (set_config (fun c =>
        {| ProblemNum := n; ConfigNum := ConfigNum c; order := order c;
           tFinal := tFinal c; dt := dt c; odeSolverType := odeSolverType c;
           VisSteps := VisSteps c; precision := precision c |}) o)
  | ArgConfiguration n =>
      Some (set_config (fun c =>
        {| ProblemNum := ProblemNum c; ConfigNum := n; order := order c;
           tFinal := tFinal c; dt := dt c; odeSolverType := odeSolverType c;
           VisSteps := VisSteps c; precision := precision c |}) o)
  | ArgMesh f =>
      Some {| config := config o; MeshFile := f;
              refinements := refinements o; prefinements := prefinements o;
              scheme := scheme o |}
  | ArgRefine n =>
      Some {| config := config o; MeshFile := MeshFile o;
              refinements := n; prefinements := prefinements o;
              scheme := scheme o |}
  | ArgParallelRefine n =>
      match d with
      | Serial => None
      | Parallel _ =>
          Some {| config := config o; MeshFile := MeshFile o;
                  refinements := refinements o; prefinements := n;
                  scheme := scheme o |}
      end
  | ArgOrder n =>
      Some (set_config (fun c =>
        {| ProblemNum := ProblemNum c; ConfigNum := ConfigNum c; order := n;
           tFinal := tFinal c; dt := dt c; odeSolverType := odeSolverType c;
           VisSteps := VisSteps c; precision := precision c |}) o)
  | ArgTFinal x =>
      Some (set_config (fun c =>
        {| ProblemNum := ProblemNum c; ConfigNum := ConfigNum c;
           order := order c; tFinal := x; dt := dt c;
           odeSolverType := odeSolverType c;
           VisSteps := VisSteps c; precision := precision c |}) o)
  | ArgTimeStep x =>
      Some (set_config (fun c =>
        {| ProblemNum := ProblemNum c; ConfigNum := ConfigNum c;
           order := order c; tFinal := tFinal c; dt := x;
           odeSolverType := odeSolverType c;
           VisSteps := VisSteps c; precision := precision c |}) o)
  | ArgODESolver n =>
      Some (set_config (fun c =>
        {| ProblemNum := ProblemNum c; ConfigNum := ConfigNum c;
           order := order c; tFinal := tFinal c; dt := dt c;
           odeSolverType := n;
           VisSteps := VisSteps c; precision := precision c |}) o)
  | ArgVisSteps n =>
      Some (set_config (fun c =>
        {| ProblemNum := ProblemNum c; ConfigNum := ConfigNum c;
           order := order c; tFinal := tFinal c; dt := dt c;
           odeSolverType := odeSolverType c;
           VisSteps := n; precision := precision c |}) o)
  | ArgScheme n =>
      Some {| config := config o; MeshFile := MeshFile o;
              refinements := refinements o; prefinements := prefinements o;
              scheme := n |}
  | ArgHelp => None
  | ArgUnknown _ => None
  end.

(** [args.Parse()]: the options are taken from left to right; [None] is a
    parser that is not [Good()]. *)
Fixpoint Parse (d : Driver) (args : list Arg) (o : Options) : option Options :=
  match args with
  | [] => Some o
  | a :: rest =>
      match store d a o with
      | Some o' => Parse d rest o'
      | None => None
      end
  end.

(** the value of the last [-e] option of a command line, [dflt] without *)
Fixpoint last_scheme (args : list Arg) (dflt : EvolutionScheme)
  : EvolutionScheme :=
  match args with
  | [] => dflt
  | ArgScheme n :: rest => last_scheme rest n
  | _ :: rest => last_scheme rest dflt
  end.

(** whether a command line holds an [-e] option *)
Definition gives_scheme (args : list Arg) : bool :=
  existsb (fun a => match a with ArgScheme _ => true | _ => false end) args.

(** ** The collaborators of the drivers *)

(** [ODESolver *odeSolver]: the three classes the [switch] can build *)
Inductive ODESolver :=
| ForwardEulerSolver
| RK2Solver (a : Q)
| RK3SSPSolver.

(** what the drivers read of a [HyperbolicSystem] *)
Record HyperbolicSystem := mkHyperbolicSystem {
  SteadyState : bool;
  SolutionKnown : bool;
  FileOutput : bool;
  u0 : Vector
}.

(** [FE_Evolution] / [ParFE_Evolution]: the constructor arguments (the
    spaces and the dof information are determined by the options) and the
    one member the drivers touch, [uOld]. *)
Record FE_Evolution := mkFE_Evolution {
  fe_space : Options;
  fe_hyp : HyperbolicSystem;
  fe_scheme : EvolutionScheme;
  fe_LumpedMassMat : Vector;
  uOld : Vector
}.

Definition set_uOld (v : Vector) (evol : FE_Evolution) : FE_Evolution :=
  {| fe_space := fe_space evol; fe_hyp := fe_hyp evol;
     fe_scheme := fe_scheme evol;
     fe_LumpedMassMat := fe_LumpedMassMat evol; uOld := v |}.

(** the three [MPI_Allreduce] calls of phypsys.cpp *)
Inductive Reduction := InitialMassSum | DomainSizeSum | FinalMassSum.

(** Everything the drivers call but do not define.
    - [GetVSize], [GlobalTrueVSize], [LumpedMassMat]: what the mesh, the
      finite element space and the lumped mass form give for the options;
    - [Advection]: the constructor [Advection(&fes, config)];
    - [ComputeErrors]: [hyp->ComputeErrors(errors, DomainSize, u)];
    - [Step]: [odeSolver->Step(u, t, dt)] after [odeSolver->Init(evol)];
      [ODESolver::Step] takes [u], [t] and [dt] by reference, so it gives
      back all three;
    - [ConvergenceCheck]: [evol.ConvergenceCheck(dt, tol, u)], the residual
      and the operator as the call leaves it;
    - [others]: what the other ranks contribute to each [MPI_SUM]. *)
Record Collaborators := mkCollaborators {
  GetVSize : Options -> nat;
  GlobalTrueVSize : Options -> nat;
  LumpedMassMat : Options -> Vector;
  Advection : Options -> HyperbolicSystem;
  ComputeErrors : HyperbolicSystem -> Q -> Vector -> list Q;
  Step : ODESolver -> FE_Evolution -> Vector -> Q -> Q -> Vector * Q * Q;
  ConvergenceCheck : FE_Evolution -> Q -> Q -> Vector -> Q * FE_Evolution;
  others : Reduction -> Q
}.

(** what a driver writes to the terminal, the socket and the disk *)
Inductive Event :=
| PrintUsage
| PrintOptions
| UnknownODESolver (n : Z)    (* "Unknown ODE solver type: " n *)
| NumberOfUnknowns (n : nat)  (* "Number of unknowns: " n *)
| UnknownSystem (n : Z)       (* "Unknown hyperbolic system: " n *)
| Warning                     (* MFEM_WARNING("You should use forward Euler
                                 for pseudo time stepping.") *)
| SaveInitial (u : Vector)    (* grid.mesh and initial.gf *)
| VisualizeField (u : Vector)
| TimeStep (ti : Z) (t : Q) (res : option Q)
                              (* "time step: " ti ", time: " t
                                 and, in steady state mode, ", residual: " *)
| MassDifference (x : Q)      (* "Difference in solution mass: " x *)
| WriteErrors (errors : list Q)
| SaveFinal (u : Vector).     (* final.gf *)

(** how a run of [main] ends *)
Inductive Run :=
| Exit (status : Z) (out : list Event)  (* [return status;] *)
| Fault (out : list Event)              (* [ti % 0] *)
| Unfinished (out : list Event).        (* still in the time loop *)

(** the variables of the time loop *)
Record LoopState := mkLoopState {
  st_u : Vector;
  st_t : Q;
  st_ti : Z;
  st_done : bool;
  st_res : option Q;       (* [None]: not assigned yet *)
  st_evol : FE_Evolution
}.

(** the variables that are fixed when the time loop starts *)
Record Ready := mkReady {
  rd_out : list Event;
  rd_options : Options;
  rd_solver : ODESolver;
  rd_hyp : HyperbolicSystem;
  rd_mass : Vector;
  rd_InitialMass : Q;
  rd_state : LoopState
}.

Definition tol : Q := 1 # 1000000000000.

Section Drivers.

Variable d : Driver.
Variable E : Collaborators.

(** what only the rank 0 prints *)
Definition say (e : Event) : list Event := if root d then [e] else [].

(** a sum over the ranks; the serial driver has only its own value *)
Definition global_sum (r : Reduction) (x : Q) : Q :=
  match d with
  | Serial => x
  | Parallel _ => x + others E r
  end.

(** [switch (config.odeSolverType)] *)
Definition select_solver (n : Z) : option ODESolver :=
  match n with
  | 1%Z => Some ForwardEulerSolver
  | 2%Z => Some (RK2Solver 1)
  | 3%Z => Some RK3SSPSolver
  | _ => None
  end.

(** [switch (config.ProblemNum)] *)
Definition select_system (o : Options) : option HyperbolicSystem :=
  match ProblemNum (config o) with
  | 0%Z => Some (Advection E o)
  | _ => None
  end.

(** [main] from its first line to the line before the time loop *)
Definition setup (args : list Arg) : Run + Ready :=
  match Parse d args defaults with
  | None => inl (Exit (-1) (say PrintUsage))
  | Some o =>
    let out := say PrintOptions in
    match select_solver (odeSolverType (config o)) with
    | None =>
        inl (Exit (-1) (out ++ [UnknownODESolver (odeSolverType (config o))]))
    | Some odeSolver =>
      let ProblemSize :=
        match d with
        | Serial => GetVSize E o
        | Parallel _ => GlobalTrueVSize E o
        end in
      let out := out ++ say (NumberOfUnknowns ProblemSize) in
      let mass := LumpedMassMat E o in
      match select_system o with
      | None =>
          inl (Exit (-1) (out ++ [UnknownSystem (ProblemNum (config o))]))
      | Some hyp =>
        let out := out ++
          (if negb (odeSolverType (config o) =? 1)%Z && SteadyState hyp
           then [Warning] else []) in
        let u := u0 hyp in
        let InitialMass := global_sum InitialMassSum (dot mass u) in
        let out := out ++ (if FileOutput hyp then [SaveInitial u] else []) in
        let out := out ++ [VisualizeField u] in
        let evol :=
          {| fe_space := o; fe_hyp := hyp; fe_scheme := scheme o;
             fe_LumpedMassMat := mass; uOld := [] |} in
        let evol :=
          if SteadyState hyp then set_uOld (zeros (GetVSize E o)) evol
          else evol in
        inr {| rd_out := out; rd_options := o; rd_solver := odeSolver;
               rd_hyp := hyp; rd_mass := mass;
               rd_InitialMass := InitialMass;
               rd_state := {| st_u := u; st_t := 0; st_ti := 0;
                              st_done := false; st_res := None;
                              st_evol := evol |} |}
      end
    end
  end.

Section TimeLoop.

Variable r : Ready.

Let cfg := config (rd_options r).

(** the loop body up to the test that decides about the output *)
Definition advance (st : LoopState) : LoopState :=
  let dt_step := min (dt cfg) (tFinal cfg - st_t st) in
  let '(u, t, dt_step) :=
    Step E (rd_solver r) (st_evol st) (st_u st) (st_t st) dt_step in
  let ti := (st_ti st + 1)%Z in
  let done := Qle_bool (tFinal cfg - (1 # 100000000) * dt cfg) t in
  if SteadyState (rd_hyp r) then
    let '(res, evol) := ConvergenceCheck E (st_evol st) dt_step tol u in
    if Qltb res tol then
      {| st_u := uOld evol; st_t := t; st_ti := ti; st_done := true;
         st_res := Some res; st_evol := evol |}
    else
      {| st_u := u; st_t := t; st_ti := ti; st_done := done;
         st_res := Some res; st_evol := evol |}
  else
    {| st_u := u; st_t := t; st_ti := ti; st_done := done;
       st_res := st_res st; st_evol := st_evol st |}.

(** the call [odeSolver->Step(u, t, dt)] of the iteration that starts in
    [st], with [dt = min(config.dt, config.tFinal - t)] *)
Definition step_of (st : LoopState) : Vector * Q * Q :=
  Step E (rd_solver r) (st_evol st) (st_u st) (st_t st)
    (min (dt cfg) (tFinal cfg - st_t st)).

(** the call [evol.ConvergenceCheck(dt, tol, u)] of that iteration *)
Definition check_of (st : LoopState) : Q * FE_Evolution :=
  ConvergenceCheck E (st_evol st) (snd (step_of st)) tol
    (fst (fst (step_of st))).

(** the body of [if (done || ti % config.VisSteps == 0)] *)
Definition show (st : LoopState) : list Event :=
  say (TimeStep (st_ti st) (st_t st)
         (if SteadyState (rd_hyp r) then st_res st else None))
  ++ [VisualizeField (st_u st)].

(** the output of one iteration; [None] when [ti % config.VisSteps] is
    evaluated with [config.VisSteps == 0] *)
Definition report (st : LoopState) : option (list Event) :=
  if st_done st then Some (show st)
  else if (VisSteps cfg =? 0)%Z then None
  else if (Z.rem (st_ti st) (VisSteps cfg) =? 0)%Z then Some (show st)
  else Some [].

(** how the time loop ends *)
Inductive Loop :=
| Completed (out : list Event) (st : LoopState)
| Faulted (out : list Event)
| Running (out : list Event) (st : LoopState).

(** [for (int ti = 0; !done;) { ... }], at most [fuel] iterations; the
    output so far is carried along *)
Fixpoint time_loop (fuel : nat) (out : list Event) (st : LoopState) : Loop :=
  match fuel with
  | O => Running out st
  | S fuel' =>
      let st' := advance st in
      match report st' with
      | None => Faulted out
      | Some lines =>
          if st_done st' then Completed (out ++ lines) st'
          else time_loop fuel' (out ++ lines) st'
      end
  end.

(** [main] after the time loop *)
Definition finish (st : LoopState) : list Event :=
  let u := st_u st in
  let DomainSize := global_sum DomainSizeSum (Sum (rd_mass r)) in
  let FinalMass := global_sum FinalMassSum (dot (rd_mass r) u) in
  say (MassDifference (Qabs (rd_InitialMass r - FinalMass) / DomainSize))
  ++ (if SolutionKnown (rd_hyp r) && FileOutput (rd_hyp r)
      then say (WriteErrors (ComputeErrors E (rd_hyp r) DomainSize u))
      else [])
  ++ (if FileOutput (rd_hyp r) then [SaveFinal u] else []).

End TimeLoop.

(** [int main(int argc, char *argv[])] *)
Definition main (args : list Arg) (fuel : nat) : Run :=
  match setup args with
  | inl stop => stop
  | inr r =>
      match time_loop r fuel (rd_out r) (rd_state r) with
      | Completed out st => Exit 0 (out ++ finish r st)
      | Faulted out => Fault out
      | Running out _ => Unfinished out
      end
  end.

End Drivers.

(** the domain size and the final mass as the driver [d] computes them *)
Definition DomainSize_of (d : Driver) (E : Collaborators) (r : Ready) : Q :=
  global_sum d E DomainSizeSum (Sum (rd_mass r)).
Definition FinalMass_of (d : Driver) (E : Collaborators) (r : Ready)
  (st : LoopState) : Q :=
  global_sum d E FinalMassSum (dot (rd_mass r) (st_u st)).

(** ** The evolution operator

    The operator itself ([lib/fe_evol.cpp], [lib/pfe_evol.cpp], with the dof
    information and the hyperbolic systems) is not among the two driver
    files.  The definitions of this part follow the description of the
    neighbor-bounds stencil, of the Monolithic Convex Limiting scheme and of
    the convergence check, sentence by sentence. *)

(** a neighbor pair [(i, j)] of degrees of freedom *)
Definition Pair := (nat * nat)%type.

(** Modelled from the spec: the neighbor sets of the dof information
    ([DofInfo], not in the driver files): built once from the mesh,
    partitioned into same-element and cross-face neighbors.  A pair is
    listed once and makes each endpoint a neighbor of the other. *)
Record Stencil := mkStencil {
  same_element : list Pair;
  cross_face : list Pair
}.

Definition pairs (s : Stencil) : list Pair := same_element s ++ cross_face s.

(** Modelled from the spec: what the Physics Contract and the assembly give
    the operator: the wave-speed bound of a pair (the pair stands for its
    normal), and the high-order flux of a pair into its first endpoint. *)
Record Physics := mkPhysics {
  waveSpeedBound : Q -> Q -> Pair -> Q;
  highOrderFlux : Vector -> Pair -> Q
}.

(** the value of the dof [i] *)
Definition val (u : Vector) (i : nat) : Q := nth i u 0.

(** the neighbors of [i] among the pairs [l], in the order of the list *)
Definition neighbors (l : list Pair) (i : nat) : list nat :=
  flat_map (fun e : Pair =>
              (if (fst e =? i)%nat then [snd e] else []) ++
              (if (snd e =? i)%nat then [fst e] else [])) l.

(** [m = min(m, u_j)], [M = max(M, u_j)] for every [j] of [js] *)
Definition expand (u : Vector) (js : list nat) (b : Q * Q) : Q * Q :=
  fold_left (fun b j => (Qmin (fst b) (val u j), Qmax (snd b) (val u j))) js b.

(** Modelled from the spec: [refresh(state)] of the Neighbor-Bounds Stencil
    for the dof [i]: the bounds start as [u_i], are expanded over the
    same-element neighbors and then over the cross-face neighbors. *)
Definition refresh (s : Stencil) (u : Vector) (i : nat) : Q * Q :=
  expand u (neighbors (cross_face s) i)
    (expand u (neighbors (same_element s) i) (val u i, val u i)).

Definition m_ (s : Stencil) (u : Vector) (i : nat) : Q := fst (refresh s u i).
Definition M_ (s : Stencil) (u : Vector) (i : nat) : Q := snd (refresh s u i).

(** Modelled from the spec: the closed form of step 4 for one endpoint (the
    limiter is in [lib/], not in the driver files): the largest [a] in
    [0, 1] with [lo <= a * f <= hi], for [lo <= 0 <= hi]. *)
Definition largest_alpha (lo hi f : Q) : Q :=
  if Qltb 0 f then Qmin 1 (hi / f)
  else if Qltb f 0 then Qmin 1 (lo / f)
  else 1.

Section MonolithicConvexLimiting.

Variable s : Stencil.
Variable ph : Physics.
Variable mass : Vector.
Variable u : Vector.

(** Modelled from the spec: step 2 of the scheme (the operator is in [lib/],
    as are the steps below): the diffusion coefficient of the pair, from the
    wave-speed bound of its two states. *)
Definition d_ (e : Pair) : Q :=
  waveSpeedBound ph (val u (fst e)) (val u (snd e)) e.

(** Modelled from the spec: step 2, the low-order (graph-Laplacian) flux of
    the pair [(i, j)] into [i]; [j] receives the opposite. *)
Definition lowOrderFlux (e : Pair) : Q :=
  d_ e * (val u (snd e) - val u (fst e)).

(** Modelled from the spec: step 3, the antidiffusive flux [F_ij], the
    high-order flux minus the low-order flux, computed once for the pair,
    and [F_ji], the same with the opposite sign. *)
Definition F_ij (e : Pair) : Q := highOrderFlux ph u e - lowOrderFlux e.
Definition F_ji (e : Pair) : Q := - F_ij e.

(** Modelled from the spec: step 4 for one endpoint, [i] with the flux [f]
    it receives from the pair it forms with [j].  The operator is evaluated
    without the time step ([computeDerivative(state, time)]), so the
    provisional low-order value of the endpoint is the one of the pair: the
    graph-Laplacian update of [i] is a combination of [u_i] and the pair
    states [u_j], and applying [a * f] moves the pair state by [a * f / d].
    It stays inside [(m_i, M_i)] when
    [d * (m_i - u_j) <= a * f <= d * (M_i - u_j)]. *)
Definition alpha_endpoint (e : Pair) (i j : nat) (f : Q) : Q :=
  largest_alpha (d_ e * (m_ s u i - val u j)) (d_ e * (M_ s u i - val u j)) f.

(** Modelled from the spec: step 4, the pairwise minimum of the two
    endpoint coefficients, as each of the two endpoints computes it. *)
Definition alpha_ij (e : Pair) : Q :=
  Qmin (alpha_endpoint e (fst e) (snd e) (F_ij e))
       (alpha_endpoint e (snd e) (fst e) (F_ji e)).
Definition alpha_ji (e : Pair) : Q :=
  Qmin (alpha_endpoint e (snd e) (fst e) (F_ji e))
       (alpha_endpoint e (fst e) (snd e) (F_ij e)).

(** what the pair [e] adds to the dof [i]: [x] if [i] is its first
    endpoint, [y] if it is its second *)
Definition scatter (e : Pair) (i : nat) (x y : Q) : Q :=
  (if (fst e =? i)%nat then x else 0) + (if (snd e =? i)%nat then y else 0).

(** Modelled from the spec: the low-order update of [i], times its mass:
    the low-order fluxes of the pairs of [i]. *)
Definition lowOrderUpdate (i : nat) : Q :=
  Sum (map (fun e => scatter e i (lowOrderFlux e) (- lowOrderFlux e))
           (pairs s)).

(** Modelled from the spec: the limited antidiffusive fluxes into [i],
    [sum_j alpha_ij F_ij]. *)
Definition antidiffusion (i : nat) : Q :=
  Sum (map (fun e => scatter e i (alpha_ij e * F_ij e) (alpha_ji e * F_ji e))
           (pairs s)).

(** Modelled from the spec: step 5,
    [dState/dt = lowOrderUpdate + sum_j alpha_ij F_ij / mass_i]. *)
Definition dudt (i : nat) : Q :=
  (lowOrderUpdate i + antidiffusion i) / val mass i.

(** Modelled from the spec: the Standard scheme in the same pair form, the
    high-order residual divided by the lumped mass. *)
Definition dudt_standard (i : nat) : Q :=
  Sum (map (fun e => scatter e i (highOrderFlux ph u e)
                                 (- highOrderFlux ph u e)) (pairs s))
  / val mass i.

(** Modelled from the spec: [computeDerivative(state, time)] of the
    evolution operator ([FE_Evolution::Mult]) for the scheme [sch]. *)
Definition Mult (sch : EvolutionScheme) : Vector :=
  map (if (sch =? MCL)%Z then dudt else dudt_standard) (seq 0 (List.length u)).

(** what the pair [e] adds to its first and to its second endpoint *)
Definition into_first (e : Pair) : Q :=
  lowOrderFlux e + alpha_ij e * F_ij e.
Definition into_second (e : Pair) : Q :=
  - lowOrderFlux e + alpha_ji e * F_ji e.

(** the sum of the diffusion coefficients of the pairs that contain [i]:
    the low-order CFL restriction is [dt * degree i <= mass_i] *)
Definition degree (i : nat) : Q :=
  Sum (map (fun e => scatter e i (d_ e) (d_ e)) (pairs s)).

End MonolithicConvexLimiting.

(** the sum of [f] over the dofs [0 .. n-1] *)
Definition total (f : nat -> Q) (n : nat) : Q := Sum (map f (seq 0 n)).

(** [x + a * y], entry by entry *)
Definition axpy (a : Q) (x y : Vector) : Vector :=
  map (fun p => fst p + a * snd p) (combine x y).

(** one forward Euler step of the operator *)
Definition euler (s : Stencil) (ph : Physics) (mass : Vector)
  (sch : EvolutionScheme) (h : Q) (u : Vector) : Vector :=
  axpy h u (Mult s ph mass u sch).

(** [k] forward Euler steps of the Monolithic Convex Limiting scheme with
    the step [h], from the initial data [u0] *)
Fixpoint march (s : Stencil) (ph : Physics) (mass : Vector) (h : Q)
  (k : nat) (u0 : Vector) : Vector :=
  match k with
  | O => u0
  | S k' => euler s ph mass MCL h (march s ph mass h k' u0)
  end.

(** Modelled from the spec: the low-order CFL restriction on the step [h]
    in the state [u], the one under which the graph-Laplacian update is a
    convex combination: [h * sum_j d_ij <= mass_i] for every dof. *)
Definition CFL (s : Stencil) (ph : Physics) (mass : Vector) (h : Q)
  (u : Vector) : Prop :=
  forall i, (i < List.length u)%nat -> h * degree s ph u i <= val mass i.

(** a stencil, masses and a physics that fit [n] dofs: the pairs join dofs
    of the space, a lumped mass is strictly positive, a wave-speed bound is
    not negative *)
Definition fits (s : Stencil) (ph : Physics) (mass : Vector) (n : nat)
  : Prop :=
  (forall e, In e (pairs s) -> (fst e < n)%nat /\ (snd e < n)%nat) /\
  (forall i, (i < n)%nat -> 0 < val mass i) /\
  (forall a b e, 0 <= waveSpeedBound ph a b e).

(** the least and the largest entry of a state (of [x] alone if the state
    is empty) *)
Definition least (x : Q) (u : Vector) : Q := fold_right Qmin x u.
Definition largest (x : Q) (u : Vector) : Q := fold_right Qmax x u.

(** Modelled from the spec: a mass-weighted norm for the convergence check
    (the weighted sum of the absolute values; the spec leaves the norm
    open). *)
Definition weighted_norm (mass z : Vector) : Q :=
  Sum (map (fun p => fst p * Qabs (snd p)) (combine mass z)).

(** [(u - uOld) / dt], entry by entry; an entry [uOld] lacks counts as 0 *)
Definition rate (h : Q) (u old : Vector) : Vector :=
  map (fun i => (val u i - val old i) / h) (seq 0 (List.length u)).

(** Modelled from the spec: [convergenceCheck(dt, tolerance, state)] of the
    evolution operator ([FE_Evolution::ConvergenceCheck], not in the driver
    files): it computes a mass-weighted norm of [(state - uOld)/dt], updates
    [uOld <- state] and returns the residual. *)
Definition convergenceCheck (evol : FE_Evolution) (h tolerance : Q)
  (u : Vector) : Q * FE_Evolution :=
  (weighted_norm (fe_LumpedMassMat evol) (rate h u (uOld evol)),
   set_uOld u evol).

(** ** A small instance

    Three dofs on a ring, linear advection with the central flux, unit
    lumped masses.  It makes the drivers and the operator run on concrete
    data. *)

Definition ring : Stencil :=
  {| same_element := [(0, 1); (1, 2)]%nat; cross_face := [(2, 0)]%nat |}.

Definition advection : Physics :=
  {| waveSpeedBound := fun _ _ _ => 1 # 2;
     highOrderFlux := fun u e => - (1 # 2) * (val u (fst e) + val u (snd e)) |}.

Definition unit_mass : Vector := [1; 1; 1].

(** the three explicit solvers on the ring, each a convex combination of
    forward Euler steps *)
Definition ring_Step (solver : ODESolver) (evol : FE_Evolution) (u : Vector)
  (t h : Q) : Vector * Q * Q :=
  let L := fun v =>
    map Qred (euler ring advection (fe_LumpedMassMat evol) (fe_scheme evol)
                h v) in
  let mix := fun a x y => map (fun p => Qred (a * fst p + (1 - a) * snd p))
                              (combine x y) in
  match solver with
  | ForwardEulerSolver => (L u, t + h, h)
  | RK2Solver _ => (mix (1 # 2) u (L (L u)), t + h, h)
  | RK3SSPSolver =>
      let y := mix (3 # 4) u (L (L u)) in
      (mix (1 # 3) u (L y), t + h, h)
  end.

(** the collaborators of a run on the ring: a hyperbolic system with the
    given flags and initial state, the convergence check of the operator *)
Definition on_ring (steady known file : bool) (init : Vector)
  : Collaborators :=
  {| GetVSize := fun _ => 3%nat;
     GlobalTrueVSize := fun _ => 3%nat;
     LumpedMassMat := fun _ => unit_mass;
     Advection := fun _ =>
       {| SteadyState := steady; SolutionKnown := known;
          FileOutput := file; u0 := init |};
     ComputeErrors := fun hyp DomainSize u =>
       [weighted_norm unit_mass (rate 1 u (u0 hyp)) / DomainSize];
     Step := ring_Step;
     ConvergenceCheck := convergenceCheck;
     others := fun _ => 0 |}.

(** a step function on the ring *)
Definition step_data : Vector := [1; 0; 0].

(** whether an output holds error norms *)
Definition writes_errors (out : list Event) : bool :=
  existsb (fun e => match e with WriteErrors _ => true | _ => false end) out.

(** whether an output shows a time step *)
Definition shows_time_step (out : list Event) : bool :=
  existsb (fun e => match e with TimeStep _ _ _ => true | _ => false end) out.

(** ** Reading a run *)

(** what a run has written, however it ended *)
Definition output_of (x : Run) : list Event :=
  match x with
  | Exit _ out => out
  | Fault out => out
  | Unfinished out => out
  end.

(** what a time loop has written, however it ended *)
Definition loop_output (l : Loop) : list Event :=
  match l with
  | Completed out _ => out
  | Faulted out => out
  | Running out _ => out
  end.

(** the lines the parallel driver writes under [if (myid == 0)] *)
Definition rank0_line (e : Event) : bool :=
  match e with
  | PrintUsage | PrintOptions | NumberOfUnknowns _ | TimeStep _ _ _
  | MassDifference _ | WriteErrors _ => true
  | _ => false
  end.

(** the messages [main] writes before it builds the hyperbolic system *)
Definition early_message (e : Event) : bool :=
  match e with
  | PrintUsage | PrintOptions | NumberOfUnknowns _ | UnknownODESolver _
  | UnknownSystem _ => true
  | _ => false
  end.

(** what the time loop writes *)
Definition loop_line (e : Event) : bool :=
  match e with
  | TimeStep _ _ _ | VisualizeField _ => true
  | _ => false
  end.

Definition saves_initial (e : Event) : bool :=
  match e with SaveInitial _ => true | _ => false end.

Definition saves_final (e : Event) : bool :=
  match e with SaveFinal _ => true | _ => false end.

(** whether a time step line carries a residual exactly in steady state
    mode (other events pass) *)
Definition residual_as_mode (steady : bool) (e : Event) : bool :=
  match e with
  | TimeStep _ _ (Some _) => steady
  | TimeStep _ _ None => negb steady
  | _ => true
  end.


(** how many events of an output satisfy [p] *)
Definition count (p : Event -> bool) (out : list Event) : nat :=
  List.length (filter p out).

(** the variables of the time loop after [k] iterations *)
Definition after (E : Collaborators) (r : Ready) (k : nat) (st : LoopState)
  : LoopState :=
  Nat.iter k (advance E r) st.

(** the collaborators [E] with another convergence check *)
Definition with_ConvergenceCheck
  (check : FE_Evolution -> Q -> Q -> Vector -> Q * FE_Evolution)
  (E : Collaborators) : Collaborators :=
  {| GetVSize := GetVSize E;
     GlobalTrueVSize := GlobalTrueVSize E;
     LumpedMassMat := LumpedMassMat E;
     Advection := Advection E;
     ComputeErrors := ComputeErrors E;
     Step := Step E;
     ConvergenceCheck := check;
     others := others E |}.

(** * Properties of the drivers *)

(** ** Scalars *)

Lemma Qltb_lt (a b : Q) : Qltb a b = true <-> a < b.
Proof.
  unfold Qltb. rewrite negb_true_iff.
  split; intro H.
  - apply Qnot_le_lt. intro Hle. apply Qle_bool_iff in Hle. congruence.
  - destruct (Qle_bool b a) eqn:E; [|reflexivity].
    apply Qle_bool_iff in E. exfalso. apply (Qlt_not_le _ _ H E).
Qed.

Lemma Qltb_ge (a b : Q) : Qltb a b = false <-> b <= a.
Proof.
  unfold Qltb. rewrite negb_false_iff. apply Qle_bool_iff.
Qed.

Lemma min_le_r (a b : Q) : min a b <= b.
Proof.
  unfold min. destruct (Qltb b a) eqn:E.
  - apply Qle_refl.
  - apply Qltb_ge in E. exact E.
Qed.

Lemma min_le_l (a b : Q) : min a b <= a.
Proof.
  unfold min. destruct (Qltb b a) eqn:E.
  - apply Qltb_lt in E. apply Qlt_le_weak. exact E.
  - apply Qle_refl.
Qed.

(** ** The command line *)

Lemma store_scheme (d : Driver) (a : Arg) (o o' : Options) :
  store d a o = Some o' ->
  scheme o' = match a with ArgScheme n => n | _ => scheme o end.
Proof.
  destruct a; simpl; try discriminate;
    try (intro H; injection H as <-; reflexivity).
  destruct d; [discriminate|].
  intro H; injection H as <-; reflexivity.
Qed.

Lemma Parse_scheme (d : Driver) (args : list Arg) :
  forall o o', Parse d args o = Some o' ->
               scheme o' = last_scheme args (scheme o).
Proof.
  induction args as [|a rest IH]; simpl; intros o o' H.
  - injection H as <-. reflexivity.
  - destruct (store d a o) as [o1|] eqn:Hs; [|discriminate].
    apply store_scheme in Hs. rewrite (IH _ _ H).
    destruct a; rewrite Hs; reflexivity.
Qed.

Lemma last_scheme_default (args : list Arg) :
  forall dflt, gives_scheme args = false -> last_scheme args dflt = dflt.
Proof.
  induction args as [|a rest IH]; simpl; intros dflt H; [reflexivity|].
  destruct a; simpl in H; try discriminate; apply IH; exact H.
Qed.

Lemma last_scheme_given (args : list Arg) :
  forall dflt, last_scheme args dflt <> dflt ->
               In (ArgScheme (last_scheme args dflt)) args.
Proof.
  induction args as [|a rest IH]; simpl; intros dflt H; [congruence|].
  destruct a; try (right; apply IH; exact H).
  destruct (Z.eq_dec (last_scheme rest n) n) as [E|E].
  - left. rewrite E. reflexivity.
  - right. apply IH. exact E.
Qed.

Lemma In_say (d : Driver) (e e' : Event) : In e (say d e') -> e = e'.
Proof.
  unfold say. destruct (root d); simpl; [|contradiction].
  intros [H|[]]. symmetry. exact H.
Qed.

(** where the output of [setup] can hold the warning *)
Lemma Warning_in_setup_output (d : Driver) (n : nat) (file : bool)
  (w : list Event) (u : Vector) :
  In Warning
     (((((say d PrintOptions ++ say d (NumberOfUnknowns n)) ++ w) ++
        (if file then [SaveInitial u] else [])) ++ [VisualizeField u])) <->
  In Warning w.
Proof.
  rewrite !in_app_iff. split.
  - intros [[[[H|H]|H]|H]|H]; try exact H.
    + apply In_say in H. discriminate.
    + apply In_say in H. discriminate.
    + destruct file; simpl in H; [destruct H as [H|[]]; discriminate|].
      contradiction.
    + destruct H as [H|[]]; discriminate.
  - intro H. left. left. right. exact H.
Qed.

(** what [setup] leaves behind when it reaches the time loop *)
Lemma setup_ready (d : Driver) (E : Collaborators) (args : list Arg)
  (r : Ready) :
  setup d E args = inr r ->
  exists o odeSolver,
    Parse d args defaults = Some o /\
    select_solver (odeSolverType (config o)) = Some odeSolver /\
    ProblemNum (config o) = 0%Z /\
    rd_options r = o /\ rd_solver r = odeSolver /\
    rd_hyp r = Advection E o /\
    rd_mass r = LumpedMassMat E o /\
    rd_InitialMass r =
      global_sum d E InitialMassSum
        (dot (LumpedMassMat E o) (u0 (Advection E o))) /\
    st_u (rd_state r) = u0 (Advection E o) /\
    st_t (rd_state r) = 0 /\
    st_done (rd_state r) = false /\
    fe_scheme (st_evol (rd_state r)) = scheme o /\
    uOld (st_evol (rd_state r)) =
      (if SteadyState (Advection E o) then zeros (GetVSize E o) else []) /\
    fe_LumpedMassMat (st_evol (rd_state r)) = LumpedMassMat E o /\
    (In Warning (rd_out r) <->
     (odeSolverType (config o) <> 1%Z /\ SteadyState (Advection E o) = true)).
Proof.
  unfold setup. intro H.
  destruct (Parse d args defaults) as [o|]; [|discriminate].
  destruct (select_solver (odeSolverType (config o))) as [sv|] eqn:Hsv;
    [|discriminate].
  unfold select_system in H.
  destruct (ProblemNum (config o)) eqn:Hp; try discriminate.
  injection H as <-. exists o, sv. simpl.
  split; [reflexivity|]. split; [exact Hsv|]. split; [exact Hp|].
  do 5 (split; [reflexivity|]).
  do 3 (split; [reflexivity|]).
  split; [destruct (SteadyState (Advection E o)); reflexivity|].
  split; [destruct (SteadyState (Advection E o)); reflexivity|].
  split; [destruct (SteadyState (Advection E o)); reflexivity|].
  rewrite Warning_in_setup_output.
  destruct (Z.eqb_spec (odeSolverType (config o)) 1) as [E1|E1];
    destruct (SteadyState (Advection E o)); simpl; split;
    try contradiction; try (intros [? ?]; congruence);
    try tauto.
Qed.

Lemma select_solver_None (n : Z) :
  select_solver n = None <-> (n <> 1 /\ n <> 2 /\ n <> 3)%Z.
Proof.
  split.
  - intro H. repeat split; intro Hn; subst n; discriminate.
  - intros (H1 & H2 & H3).
    destruct n as [|p|p]; try reflexivity.
    destruct p as [[p|p|]|[p|p|]|]; try reflexivity; congruence.
Qed.

Lemma select_solver_Some (n : Z) :
  (n = 1 \/ n = 2 \/ n = 3)%Z ->
  select_solver n =
    Some (if (n =? 1)%Z then ForwardEulerSolver
          else if (n =? 2)%Z then RK2Solver 1 else RK3SSPSolver).
Proof.
  intros [H|[H|H]]; subst n; reflexivity.
Qed.

Lemma shows_time_step_say (d : Driver) (e : Event) :
  shows_time_step (say d e) =
    (root d && match e with TimeStep _ _ _ => true | _ => false end).
Proof.
  unfold say. destruct (root d); simpl; [|reflexivity].
  destruct e; reflexivity.
Qed.

(** the output of the time loop extends the output it starts from *)
Lemma time_loop_extends (d : Driver) (E : Collaborators) (r : Ready)
  (fuel : nat) :
  forall out st,
    exists more,
      match time_loop d E r fuel out st with
      | Completed out' _ => out' = out ++ more
      | Faulted out' => out' = out ++ more
      | Running out' _ => out' = out ++ more
      end.
Proof.
  induction fuel as [|fuel IH]; simpl; intros out st.
  - exists []. rewrite app_nil_r. reflexivity.
  - destruct (report d r (advance E r st)) as [lines|].
    + destruct (st_done (advance E r st)).
      * exists lines. reflexivity.
      * destruct (IH (out ++ lines) (advance E r st)) as [more Hm].
        exists (lines ++ more). rewrite app_assoc. exact Hm.
    + exists []. rewrite app_nil_r. reflexivity.
Qed.

(** a run that returns 0 has gone through the time loop *)
Lemma main_completed (d : Driver) (E : Collaborators) (args : list Arg)
  (fuel : nat) (out : list Event) :
  main d E args fuel = Exit 0 out ->
  exists r pre st,
    setup d E args = inr r /\
    time_loop d E r fuel (rd_out r) (rd_state r) = Completed pre st /\
    st_done st = true /\
    out = pre ++ finish d E r st.
Proof.
  unfold main. destruct (setup d E args) as [stop|r] eqn:Hs.
  - intro H. subst stop. exfalso. revert Hs. unfold setup.
    destruct (Parse d args defaults) as [o|]; [|discriminate].
    destruct (select_solver (odeSolverType (config o))); [|discriminate].
    destruct (select_system E o); discriminate.
  - destruct (time_loop d E r fuel (rd_out r) (rd_state r)) as [pre st| |]
      eqn:Hl; try discriminate.
    intro H. injection H as <-. exists r, pre, st.
    repeat split; try assumption.
    clear Hs. revert Hl. generalize (rd_out r) (rd_state r).
    induction fuel as [|fuel IH]; simpl; intros o0 s0; [discriminate|].
    destruct (report d r (advance E r s0)) as [lines|]; [|discriminate].
    destruct (st_done (advance E r s0)) eqn:Hd.
    + intro H. injection H as _ <-. exact Hd.
    + apply IH.
Qed.

(** ** Theorems about the configuration *)

(** A command line the parser does not accept: the usage is printed (by the
    rank 0 in the parallel driver) and [main] returns -1, whatever the
    options before the offending one were. *)
Theorem bad_command_line_is_fatal (d : Driver) (E : Collaborators)
  (args : list Arg) (fuel : nat) :
  Parse d args defaults = None ->
  main d E args fuel = Exit (-1) (say d PrintUsage).
Proof.
  intro H. unfold main, setup. rewrite H. reflexivity.
Qed.

Lemma bad_command_line_is_fatal_witness :
  main Serial (on_ring false true true step_data)
    [ArgODESolver 7; ArgParallelRefine 1] 5 = Exit (-1) [PrintUsage].
Proof.
  apply (bad_command_line_is_fatal Serial
           (on_ring false true true step_data)
           [ArgODESolver 7; ArgParallelRefine 1] 5 eq_refl).
Defined.

(** C9: both drivers start from the Standard scheme (value 0); the scheme
    the evolution operator is built with is the value of the last [-e]
    option, so without such an option it is Standard, and it is the
    Monolithic Convex Limiting scheme (value 1) only when the command line
    holds the option with the value 1. *)
Theorem scheme_defaults_to_Standard (d : Driver) (E : Collaborators)
  (args : list Arg) (r : Ready) :
  setup d E args = inr r ->
  scheme defaults = 0%Z /\
  fe_scheme (st_evol (rd_state r)) = last_scheme args Standard /\
  (gives_scheme args = false ->
   fe_scheme (st_evol (rd_state r)) = Standard) /\
  (fe_scheme (st_evol (rd_state r)) = MCL -> In (ArgScheme 1) args).
Proof.
  intro H. apply setup_ready in H.
  destruct H as (o & sv & Hp & _ & _ & _ & _ & _ & _ & _ & _ & _ & _ & Hs & _).
  apply Parse_scheme in Hp. simpl in Hp. rewrite Hs, Hp.
  split; [reflexivity|]. split; [reflexivity|]. split.
  - apply last_scheme_default.
  - intro Hm.
    assert (Hne : last_scheme args Standard <> Standard)
      by (rewrite Hm; discriminate).
    apply last_scheme_given in Hne. rewrite Hm in Hne. exact Hne.
Qed.

Lemma scheme_defaults_to_Standard_witness :
  exists r,
    setup Serial (on_ring false true true step_data) [ArgODESolver 1] = inr r /\
    fe_scheme (st_evol (rd_state r)) = Standard.
Proof.
  eexists. split; [reflexivity|].
  apply (scheme_defaults_to_Standard Serial
           (on_ring false true true step_data) [ArgODESolver 1] _ eq_refl).
  reflexivity.
Defined.

(** C2: a run whose options parse.  An integrator identifier other than 1,
    2 and 3 is reported and the run returns -1; with a known integrator, a
    problem identifier other than 0 is reported and the run returns -1.
    Both happen for every number of time steps the loop would be allowed,
    none included, and the output shows no time step.  With known
    identifiers the solver of that number and the advection system are
    built. *)
Theorem unknown_identifier_is_fatal (d : Driver) (E : Collaborators)
  (args : list Arg) (o : Options) (fuel : nat) :
  Parse d args defaults = Some o ->
  let n := odeSolverType (config o) in
  let p := ProblemNum (config o) in
  ((n <> 1 /\ n <> 2 /\ n <> 3)%Z ->
   exists out,
     main d E args fuel = Exit (-1) out /\
     In (UnknownODESolver n) out /\ shows_time_step out = false) /\
  ((n = 1 \/ n = 2 \/ n = 3)%Z -> p <> 0%Z ->
   exists out,
     main d E args fuel = Exit (-1) out /\
     In (UnknownSystem p) out /\ shows_time_step out = false) /\
  ((n = 1 \/ n = 2 \/ n = 3)%Z -> p = 0%Z ->
   exists r,
     setup d E args = inr r /\
     rd_solver r = (if (n =? 1)%Z then ForwardEulerSolver
                    else if (n =? 2)%Z then RK2Solver 1 else RK3SSPSolver) /\
     rd_hyp r = Advection E o).
Proof.
  intros HP n p. unfold main, setup. rewrite HP. fold n. fold p.
  split; [|split].
  - intro Hn. apply select_solver_None in Hn. rewrite Hn.
    eexists. split; [reflexivity|]. split.
    + apply in_or_app. right. left. reflexivity.
    + unfold shows_time_step. rewrite existsb_app.
      fold (shows_time_step (say d PrintOptions)).
      rewrite shows_time_step_say, andb_false_r. reflexivity.
  - intros Hn Hp. rewrite (select_solver_Some n Hn).
    unfold select_system. fold p.
    destruct p as [|q|q] eqn:Ep; [congruence| |];
      (eexists; split; [reflexivity|]; split;
       [apply in_or_app; right; left; reflexivity|];
       unfold shows_time_step; rewrite !existsb_app;
       fold (shows_time_step (say d PrintOptions));
       match goal with
       | |- context [existsb _ (say d (NumberOfUnknowns ?k))] =>
           fold (shows_time_step (say d (NumberOfUnknowns k)))
       end;
       rewrite !shows_time_step_say, !andb_false_r; reflexivity).
  - intros Hn Hp. rewrite (select_solver_Some n Hn).
    unfold select_system. fold p. rewrite Hp.
    eexists. split; [reflexivity|]. split; reflexivity.
Qed.

Lemma unknown_identifier_is_fatal_witness :
  (exists out,
     main Serial (on_ring false true true step_data)
       [ArgODESolver 7; ArgProblem 3] 0 = Exit (-1) out /\
     In (UnknownODESolver 7) out /\ shows_time_step out = false) /\
  (exists out,
     main (Parallel 1) (on_ring false true true step_data)
       [ArgProblem 3] 0 = Exit (-1) out /\
     In (UnknownSystem 3) out /\ shows_time_step out = false).
Proof.
  split.
  - apply (unknown_identifier_is_fatal Serial
             (on_ring false true true step_data)
             [ArgODESolver 7; ArgProblem 3] _ 0%nat eq_refl).
    repeat split; discriminate.
  - apply (unknown_identifier_is_fatal (Parallel 1)
             (on_ring false true true step_data)
             [ArgProblem 3] _ 0%nat eq_refl).
    + right. right. reflexivity.
    + discriminate.
Defined.

(** C6: a run whose options parse, that selects an integrator other than
    forward Euler and whose problem is steady-state seeking.  The warning
    is written, [main] goes on into the time loop and is whatever the loop
    makes of it; if it returns, it returns 0 and its output holds the
    warning. *)
Theorem steady_state_without_Euler_warns (d : Driver) (E : Collaborators)
  (args : list Arg) (o : Options) (odeSolver : ODESolver) :
  Parse d args defaults = Some o ->
  select_solver (odeSolverType (config o)) = Some odeSolver ->
  odeSolverType (config o) <> 1%Z ->
  ProblemNum (config o) = 0%Z ->
  SteadyState (Advection E o) = true ->
  exists r,
    setup d E args = inr r /\
    In Warning (rd_out r) /\
    forall fuel,
      main d E args fuel =
        match time_loop d E r fuel (rd_out r) (rd_state r) with
        | Completed out st => Exit 0 (out ++ finish d E r st)
        | Faulted out => Fault out
        | Running out _ => Unfinished out
        end /\
      forall status out,
        main d E args fuel = Exit status out ->
        status = 0%Z /\ In Warning out.
Proof.
  intros HP Hsv Hn Hp Hs.
  destruct (setup d E args) as [stop|r] eqn:Hr.
  - exfalso. revert Hr. unfold setup, select_system.
    rewrite HP, Hsv, Hp. discriminate.
  - exists r. split; [reflexivity|].
    assert (Hw : In Warning (rd_out r)).
    { destruct (setup_ready d E args r Hr)
        as (o' & sv' & HP' & _ & _ & _ & _ & _ & _ & _ & _ & _ & _ & _ & _ & _
            & Hw).
      rewrite HP in HP'. injection HP' as <-. apply Hw. split; assumption. }
    split; [exact Hw|].
    intro fuel. unfold main. rewrite Hr. split; [reflexivity|].
    intros status out.
    destruct (time_loop_extends d E r fuel (rd_out r) (rd_state r))
      as [more Hm].
    destruct (time_loop d E r fuel (rd_out r) (rd_state r)) as [out' st| |];
      try discriminate.
    intro H. injection H as <- <-. split; [reflexivity|].
    subst out'. rewrite !in_app_iff. left. left. exact Hw.
Qed.

Lemma steady_state_without_Euler_warns_witness :
  exists r,
    setup (Parallel 2) (on_ring true true true step_data)
      [ArgODESolver 2] = inr r /\
    In Warning (rd_out r).
Proof.
  destruct (steady_state_without_Euler_warns (Parallel 2)
              (on_ring true true true step_data) [ArgODESolver 2]
              _ _ eq_refl eq_refl) as (r & Hr & Hw & _).
  - discriminate.
  - reflexivity.
  - reflexivity.
  - exists r. split; assumption.
Defined.

(** ** Theorems about the end of a run *)

(** C7: a run that went through the time loop returns 0, whatever the
    masses are, and after the output of the loop the rank 0 (or the serial
    driver) writes |InitialMass - FinalMass| / DomainSize, the masses being
    inner products of the lumped mass with the initial and the final state
    and the domain size the sum of the lumped masses (summed over the ranks
    in the parallel driver). *)
Theorem mass_difference_is_reported (d : Driver) (E : Collaborators)
  (args : list Arg) (fuel : nat) (r : Ready) (pre : list Event)
  (st : LoopState) :
  setup d E args = inr r ->
  time_loop d E r fuel (rd_out r) (rd_state r) = Completed pre st ->
  exists rest,
    main d E args fuel =
      Exit 0 (pre ++
              say d (MassDifference
                       (Qabs (rd_InitialMass r - FinalMass_of d E r st) /
                        DomainSize_of d E r)) ++ rest) /\
    rd_InitialMass r =
      global_sum d E InitialMassSum (dot (rd_mass r) (u0 (rd_hyp r))) /\
    (root d = true ->
     In (MassDifference
           (Qabs (rd_InitialMass r - FinalMass_of d E r st) /
            DomainSize_of d E r))
        (pre ++ say d (MassDifference
                         (Qabs (rd_InitialMass r - FinalMass_of d E r st) /
                          DomainSize_of d E r)) ++ rest)).
Proof.
  intros Hr Hl. unfold main. rewrite Hr, Hl. unfold finish.
  eexists. split; [reflexivity|]. split.
  - destruct (setup_ready d E args r Hr)
      as (o & sv & _ & _ & _ & _ & _ & Hh & Hm & HI & _).
    rewrite HI, Hm, Hh. reflexivity.
  - intro Hroot. apply in_or_app. right. apply in_or_app. left.
    unfold say. rewrite Hroot. left. reflexivity.
Qed.

Lemma mass_difference_is_reported_witness :
  exists out,
    main Serial (on_ring false true true step_data)
      [ArgTimeStep (1 # 2); ArgODESolver 1; ArgScheme 1] 2 = Exit 0 out.
Proof.
  destruct (mass_difference_is_reported Serial
              (on_ring false true true step_data)
              [ArgTimeStep (1 # 2); ArgODESolver 1; ArgScheme 1] 2
              _ _ _ eq_refl eq_refl) as (rest & H & _).
  eexists. exact H.
Defined.

(** C5, as the drivers have it: the error norms are computed and written
    under [hyp->SolutionKnown && hyp->FileOutput].  A run that went through
    the time loop, with a known solution and with file output, ends with the
    mass difference, the error norms of the final state (written by the rank
    0 or by the serial driver) and the saved final state. *)
Theorem errors_are_written_with_FileOutput (d : Driver) (E : Collaborators)
  (args : list Arg) (fuel : nat) (r : Ready) (pre : list Event)
  (st : LoopState) :
  setup d E args = inr r ->
  time_loop d E r fuel (rd_out r) (rd_state r) = Completed pre st ->
  SolutionKnown (rd_hyp r) = true ->
  FileOutput (rd_hyp r) = true ->
  main d E args fuel =
    Exit 0 (pre ++
            say d (MassDifference
                     (Qabs (rd_InitialMass r - FinalMass_of d E r st) /
                      DomainSize_of d E r)) ++
            say d (WriteErrors
                     (ComputeErrors E (rd_hyp r) (DomainSize_of d E r)
                        (st_u st))) ++
            [SaveFinal (st_u st)]).
Proof.
  intros Hr Hl Hk Hf. unfold main. rewrite Hr, Hl. unfold finish.
  rewrite Hk, Hf. reflexivity.
Qed.

Lemma errors_are_written_with_FileOutput_witness :
  writes_errors
    match main Serial (on_ring false true true step_data)
            [ArgTimeStep (1 # 2); ArgODESolver 1] 2 with
    | Exit _ out => out
    | _ => []
    end = true.
Proof.
  rewrite (errors_are_written_with_FileOutput Serial
             (on_ring false true true step_data)
             [ArgTimeStep (1 # 2); ArgODESolver 1] 2 _ _ _
             eq_refl eq_refl eq_refl eq_refl).
  reflexivity.
Defined.

(** C5 as stated fails: a hyperbolic system with a known solution and
    without file output.  The run returns 0 and writes no error norms. *)
Lemma known_solution_without_FileOutput :
  exists r out,
    setup Serial (on_ring false true false step_data)
      [ArgTimeStep (1 # 2); ArgODESolver 1] = inr r /\
    SolutionKnown (rd_hyp r) = true /\
    FileOutput (rd_hyp r) = false /\
    main Serial (on_ring false true false step_data)
      [ArgTimeStep (1 # 2); ArgODESolver 1] 2 = Exit 0 out /\
    writes_errors out = false.
Proof.
  eexists. eexists. split; [reflexivity|].
  split; [reflexivity|]. split; [reflexivity|].
  split; [vm_compute; reflexivity|]. reflexivity.
Qed.

(** ** Theorems about the time loop *)

Section LoopProperties.

Variable d : Driver.
Variable E : Collaborators.
Variable r : Ready.

Let cfg := config (rd_options r).

Lemma advance_steady (st : LoopState) :
  SteadyState (rd_hyp r) = true ->
  advance E r st =
    if Qltb (fst (check_of E r st)) tol then
      {| st_u := uOld (snd (check_of E r st));
         st_t := snd (fst (step_of E r st));
         st_ti := st_ti st + 1; st_done := true;
         st_res := Some (fst (check_of E r st));
         st_evol := snd (check_of E r st) |}
    else
      {| st_u := fst (fst (step_of E r st));
         st_t := snd (fst (step_of E r st));
         st_ti := st_ti st + 1;
         st_done := Qle_bool (tFinal cfg - (1 # 100000000) * dt cfg)
                             (snd (fst (step_of E r st)));
         st_res := Some (fst (check_of E r st));
         st_evol := snd (check_of E r st) |}.
Proof.
  intro Hs. unfold advance, check_of, step_of. fold cfg.
  destruct (Step E (rd_solver r) (st_evol st) (st_u st) (st_t st)
              (min (dt cfg) (tFinal cfg - st_t st))) as [[u t] h].
  rewrite Hs. simpl.
  destruct (ConvergenceCheck E (st_evol st) h tol u) as [res evol].
  reflexivity.
Qed.

Lemma advance_transient (st : LoopState) :
  SteadyState (rd_hyp r) = false ->
  advance E r st =
    {| st_u := fst (fst (step_of E r st));
       st_t := snd (fst (step_of E r st));
       st_ti := st_ti st + 1;
       st_done := Qle_bool (tFinal cfg - (1 # 100000000) * dt cfg)
                           (snd (fst (step_of E r st)));
       st_res := st_res st; st_evol := st_evol st |}.
Proof.
  intro Hs. unfold advance, step_of. fold cfg.
  destruct (Step E (rd_solver r) (st_evol st) (st_u st) (st_t st)
              (min (dt cfg) (tFinal cfg - st_t st))) as [[u t] h].
  rewrite Hs. reflexivity.
Qed.

Lemma advance_time (st : LoopState) :
  st_t (advance E r st) = snd (fst (step_of E r st)).
Proof.
  destruct (SteadyState (rd_hyp r)) eqn:Hs.
  - rewrite (advance_steady st Hs).
    destruct (Qltb (fst (check_of E r st)) tol); reflexivity.
  - rewrite (advance_transient st Hs). reflexivity.
Qed.

Lemma advance_done (st : LoopState) :
  tFinal cfg - (1 # 100000000) * dt cfg <= st_t (advance E r st) ->
  st_done (advance E r st) = true.
Proof.
  rewrite advance_time. intro H. apply Qle_bool_iff in H.
  destruct (SteadyState (rd_hyp r)) eqn:Hs.
  - rewrite (advance_steady st Hs).
    destruct (Qltb (fst (check_of E r st)) tol); [reflexivity|exact H].
  - rewrite (advance_transient st Hs). exact H.
Qed.

(** an iteration that sets [done] is the last one *)
Lemma time_loop_done (st : LoopState) (fuel : nat) (out : list Event) :
  st_done (advance E r st) = true ->
  time_loop d E r (S fuel) out st =
    Completed (out ++ show d r (advance E r st)) (advance E r st).
Proof.
  intro Hd. simpl. unfold report. rewrite Hd. reflexivity.
Qed.

(** C1: in steady state mode, an iteration whose convergence check returns
    a residual below the tolerance 1e-12 sets [done], so the time loop ends
    with this iteration, and it assigns [uOld] of the evolution operator,
    as the check left it, to [u]: the state the iteration shows, and the
    final state of the run, is [uOld]. *)
Theorem convergence_ends_the_loop (st : LoopState) (fuel : nat)
  (out : list Event) :
  SteadyState (rd_hyp r) = true ->
  fst (check_of E r st) < tol ->
  st_done (advance E r st) = true /\
  st_evol (advance E r st) = snd (check_of E r st) /\
  st_u (advance E r st) = uOld (st_evol (advance E r st)) /\
  time_loop d E r (S fuel) out st =
    Completed (out ++ show d r (advance E r st)) (advance E r st) /\
  In (VisualizeField (uOld (snd (check_of E r st))))
     (show d r (advance E r st)).
Proof.
  intros Hs Hres. apply Qltb_lt in Hres.
  assert (Ha := advance_steady st Hs). rewrite Hres in Ha.
  assert (Hd : st_done (advance E r st) = true) by (rewrite Ha; reflexivity).
  split; [exact Hd|]. split; [rewrite Ha; reflexivity|].
  split; [rewrite Ha; reflexivity|].
  split; [apply time_loop_done; exact Hd|].
  unfold show. apply in_or_app. right. rewrite Ha. left. reflexivity.
Qed.

(** C8: the iteration that starts in [st] calls the integrator with the
    step [min(config.dt, config.tFinal - t)] and takes its time from it.
    If the integrator never advances the time by more than the step it is
    given, the time after an iteration is at most [config.tFinal], after
    any number of iterations.  An iteration that ends at a time
    [t >= config.tFinal - 1e-8 * config.dt] sets [done] and is the last
    one. *)
Theorem time_stays_below_tFinal (st : LoopState) :
  (forall solver evol u t h, snd (fst (Step E solver evol u t h)) <= t + h) ->
  st_t (advance E r st) =
    snd (fst (Step E (rd_solver r) (st_evol st) (st_u st) (st_t st)
                (min (dt cfg) (tFinal cfg - st_t st)))) /\
  st_t (advance E r st) <= tFinal cfg /\
  (forall k, (0 < k)%nat ->
             st_t (Nat.iter k (advance E r) st) <= tFinal cfg) /\
  (tFinal cfg - (1 # 100000000) * dt cfg <= st_t (advance E r st) ->
   st_done (advance E r st) = true /\
   forall fuel out,
     time_loop d E r (S fuel) out st =
       Completed (out ++ show d r (advance E r st)) (advance E r st)).
Proof.
  intro Hstep.
  assert (Hle : forall s, st_t (advance E r s) <= tFinal cfg).
  { intro s. rewrite advance_time. unfold step_of. fold cfg.
    eapply Qle_trans; [apply Hstep|].
    assert (Hm := min_le_r (dt cfg) (tFinal cfg - st_t s)). lra. }
  split; [apply advance_time|]. split; [apply Hle|]. split.
  - intros k Hk. destruct k as [|k]; [lia|]. simpl. apply Hle.
  - intro Hfin. assert (Hd := advance_done st Hfin).
    split; [exact Hd|]. intros fuel out. apply time_loop_done. exact Hd.
Qed.

End LoopProperties.

Lemma convergence_ends_the_loop_witness :
  exists r st,
    setup Serial (on_ring true true true [1; 1; 1])
      [ArgODESolver 1; ArgScheme 1] = inr r /\
    st = advance (on_ring true true true [1; 1; 1]) r (rd_state r) /\
    st_done st = false /\
    st_done (advance (on_ring true true true [1; 1; 1]) r st) = true /\
    st_u (advance (on_ring true true true [1; 1; 1]) r st) = [1; 1; 1].
Proof.
  eexists. eexists. split; [reflexivity|]. split; [reflexivity|].
  split; [reflexivity|].
  match goal with
  | |- st_done (advance ?E ?r ?st) = true /\ _ =>
      destruct (convergence_ends_the_loop Serial E r st 0 [])
        as (Hd & _ & Hu & _)
  end.
  - reflexivity.
  - vm_compute. reflexivity.
  - split; [exact Hd|]. rewrite Hu. vm_compute. reflexivity.
Defined.

Lemma ring_Step_time (solver : ODESolver) (evol : FE_Evolution) (u : Vector)
  (t h : Q) :
  snd (fst (ring_Step solver evol u t h)) <= t + h.
Proof.
  destruct solver; simpl; apply Qle_refl.
Qed.

Lemma time_stays_below_tFinal_witness :
  exists r,
    setup Serial (on_ring false true true step_data)
      [ArgTimeStep (3 # 4); ArgODESolver 1; ArgScheme 1] = inr r /\
    st_t (Nat.iter 2 (advance (on_ring false true true step_data) r)
            (rd_state r)) <= 1.
Proof.
  eexists. split; [reflexivity|].
  match goal with
  | |- st_t (Nat.iter 2 (advance ?E ?r) ?st) <= _ =>
      destruct (time_stays_below_tFinal Serial E r st) as (_ & _ & Hk & _)
  end.
  - intros. apply ring_Step_time.
  - apply (Hk 2%nat). lia.
Defined.

(** ** The end of the time loop *)

Section Termination.

Variable d : Driver.
Variable E : Collaborators.
Variable r : Ready.

Let cfg := config (rd_options r).

Hypothesis Step_time :
  forall solver evol u t h, snd (fst (Step E solver evol u t h)) == t + h.
Hypothesis dt_positive : 0 < dt cfg.
Hypothesis VisSteps_not_zero : VisSteps cfg <> 0%Z.




End Termination.

Lemma ring_Step_exact (solver : ODESolver) (evol : FE_Evolution) (u : Vector)
  (t h : Q) :
  snd (fst (ring_Step solver evol u t h)) == t + h.
Proof.
  destruct solver; reflexivity.
Qed.



(** With a visualization interval of 0, an iteration that does not set
    [done] evaluates [ti % 0]: the run does not return. *)
Theorem zero_VisSteps_faults (d : Driver) (E : Collaborators)
  (args : list Arg) (r : Ready) (fuel : nat) :
  setup d E args = inr r ->
  VisSteps (config (rd_options r)) = 0%Z ->
  st_done (advance E r (rd_state r)) = false ->
  main d E args (S fuel) = Fault (rd_out r).
Proof.
  intros Hr Hv Hd. unfold main. rewrite Hr. simpl. unfold report.
  rewrite Hd, Hv. reflexivity.
Qed.

Lemma zero_VisSteps_faults_witness :
  exists out,
    main Serial (on_ring false true true step_data) [ArgVisSteps 0] 1
      = Fault out.
Proof.
  eexists.
  apply (zero_VisSteps_faults Serial (on_ring false true true step_data)
           [ArgVisSteps 0] _ 0 eq_refl eq_refl).
  vm_compute. reflexivity.
Defined.

(** ** The convergence check *)

Lemma val_zeros (n i : nat) : val (zeros n) i = 0.
Proof.
  unfold val, zeros. revert i.
  induction n as [|n IH]; intros [|i]; simpl; try reflexivity. apply IH.
Qed.

Lemma Sum_Qeq (x y : Vector) : Forall2 Qeq x y -> Sum x == Sum y.
Proof.
  induction 1 as [|a b x y Hab _ IH]; simpl; [reflexivity|].
  rewrite Hab, IH. reflexivity.
Qed.

Lemma weighted_norm_Qeq (mass x y : Vector) :
  Forall2 Qeq x y -> weighted_norm mass x == weighted_norm mass y.
Proof.
  intro H. unfold weighted_norm. apply Sum_Qeq.
  revert mass. induction H as [|a b x y Hab _ IH]; intros [|w mass]; simpl;
    try constructor.
  - rewrite Hab. reflexivity.
  - apply IH.
Qed.

(** entry by entry, the rate of change against a vector of zeros is the
    state over the step *)
Lemma rate_against_zero (h : Q) (u : Vector) (z : nat -> Q) :
  (forall i, z i == 0) ->
  Forall2 Qeq (map (fun i => (val u i - z i) / h) (seq 0 (List.length u)))
              (map (fun x => x / h) u).
Proof.
  revert z. induction u as [|a u IH]; intros z Hz; simpl; [constructor|].
  constructor.
  - unfold val. simpl. rewrite (Hz 0%nat). unfold Qminus.
    rewrite Qplus_0_r. reflexivity.
  - rewrite <- seq_shift, map_map.
    apply (IH (fun i => z (S i))). intro i. apply Hz.
Qed.

Lemma residual_against_zero (mass u : Vector) (h : Q) (n : nat) :
  weighted_norm mass (rate h u (zeros n)) ==
  weighted_norm mass (map (fun x => x / h) u).
Proof.
  apply weighted_norm_Qeq. unfold rate.
  apply (rate_against_zero h u (fun i => val (zeros n) i)).
  intro i. rewrite val_zeros. reflexivity.
Qed.

(** C10, as the drivers and the convergence check have it: in steady state
    mode [setup] leaves [uOld] as the vector of zeros of the size of the
    space, while [u] is the initial condition.  The first convergence check
    therefore measures the first state against zero: its residual is the
    mass-weighted norm of that state over the step, and the first iteration
    converges exactly when this norm is below the tolerance; so it is for a
    run whose first step leaves the initial condition as it is. *)
Theorem first_residual_is_against_zero (d : Driver) (E : Collaborators)
  (args : list Arg) (r : Ready) :
  setup d E args = inr r ->
  SteadyState (rd_hyp r) = true ->
  (forall evol h tl u,
     ConvergenceCheck E evol h tl u = convergenceCheck evol h tl u) ->
  uOld (st_evol (rd_state r)) = zeros (GetVSize E (rd_options r)) /\
  st_u (rd_state r) = u0 (rd_hyp r) /\
  st_res (advance E r (rd_state r)) = Some (fst (check_of E r (rd_state r))) /\
  fst (check_of E r (rd_state r)) ==
    weighted_norm (rd_mass r)
      (map (fun x => x / snd (step_of E r (rd_state r)))
           (fst (fst (step_of E r (rd_state r))))) /\
  (fst (check_of E r (rd_state r)) < tol <->
   weighted_norm (rd_mass r)
     (map (fun x => x / snd (step_of E r (rd_state r)))
          (fst (fst (step_of E r (rd_state r))))) < tol) /\
  (fst (fst (step_of E r (rd_state r))) = u0 (rd_hyp r) ->
   fst (check_of E r (rd_state r)) ==
     weighted_norm (rd_mass r)
       (map (fun x => x / snd (step_of E r (rd_state r))) (u0 (rd_hyp r)))).
Proof.
  intros Hr Hs HC.
  destruct (setup_ready d E args r Hr)
    as (o & sv & _ & _ & _ & Ho & _ & Hh & Hm & _ & Hu & _ & _ & _ & Hold
        & Hmass & _).
  rewrite Hh in Hs. rewrite Hs in Hold.
  assert (Hres : fst (check_of E r (rd_state r)) ==
    weighted_norm (rd_mass r)
      (map (fun x => x / snd (step_of E r (rd_state r)))
           (fst (fst (step_of E r (rd_state r)))))).
  { unfold check_of. rewrite HC. unfold convergenceCheck. simpl.
    rewrite Hold, Hmass, Hm. apply residual_against_zero. }
  split; [rewrite Ho; exact Hold|].
  split; [rewrite Hh; exact Hu|].
  split.
  { rewrite (advance_steady E r (rd_state r)) by (rewrite Hh; exact Hs).
    destruct (Qltb (fst (check_of E r (rd_state r))) tol); reflexivity. }
  split; [exact Hres|].
  split; [rewrite Hres; reflexivity|].
  intro H1. rewrite Hres, H1. reflexivity.
Qed.

Lemma first_residual_is_against_zero_witness :
  exists r,
    setup Serial (on_ring true true true [1; 1; 1])
      [ArgODESolver 1; ArgScheme 1] = inr r /\
    fst (check_of (on_ring true true true [1; 1; 1]) r (rd_state r)) ==
      3000.
Proof.
  eexists. split; [reflexivity|].
  match goal with
  | |- fst (check_of ?E ?r _) == _ =>
      destruct (first_residual_is_against_zero Serial E
                  [ArgODESolver 1; ArgScheme 1] r eq_refl eq_refl)
        as (_ & _ & _ & _ & _ & Hres)
  end.
  - reflexivity.
  - rewrite Hres; [|vm_compute; reflexivity]. vm_compute. reflexivity.
Defined.

(** C10 as stated fails for the zero state: it is a steady state of the
    ring, its first residual is zero, and the run converges in its first
    iteration, long before the final time. *)
Lemma zero_state_converges_at_once :
  exists r out t res,
    setup Serial (on_ring true true true (zeros 3)) [ArgODESolver 1]
      = inr r /\
    fst (fst (step_of (on_ring true true true (zeros 3)) r (rd_state r)))
      = u0 (rd_hyp r) /\
    main Serial (on_ring true true true (zeros 3)) [ArgODESolver 1] 1
      = Exit 0 out /\
    In (TimeStep 1 t (Some res)) out /\
    res == 0 /\ res < tol /\ t < tFinal (config (rd_options r)).
Proof.
  eexists. eexists. eexists. eexists.
  split; [reflexivity|]. split; [vm_compute; reflexivity|].
  split; [vm_compute; reflexivity|].
  split; [right; right; right; right; left; reflexivity|].
  split; [reflexivity|]. split; reflexivity.
Qed.

(** * Properties of the limited evolution operator *)

Lemma Sum_app (x y : Vector) : Sum (x ++ y) == Sum x + Sum y.
Proof.
  induction x as [|a x IH]; simpl; [lra|]. rewrite IH. lra.
Qed.

Lemma total_S (f : nat -> Q) (n : nat) : total f (S n) == total f n + f n.
Proof.
  unfold total. rewrite seq_S, map_app, Sum_app. simpl. lra.
Qed.

Lemma total_plus (f g : nat -> Q) (n : nat) :
  total (fun i => f i + g i) n == total f n + total g n.
Proof.
  induction n as [|n IH]; [unfold total; simpl; lra|].
  rewrite !total_S, IH. lra.
Qed.

Lemma total_zero (n : nat) : total (fun _ => 0) n == 0.
Proof.
  induction n as [|n IH]; [reflexivity|]. rewrite total_S, IH. lra.
Qed.

Lemma total_ext (f g : nat -> Q) (n : nat) :
  (forall i, (i < n)%nat -> f i == g i) -> total f n == total g n.
Proof.
  induction n as [|n IH]; intro H; [reflexivity|].
  rewrite !total_S, IH, (H n) by auto with arith. reflexivity.
Qed.

(** a value put at the dof [a] is counted once when [a] is a dof *)
Lemma total_at (a : nat) (x : Q) (n : nat) :
  (a < n)%nat -> total (fun i => if (a =? i)%nat then x else 0) n == x.
Proof.
  induction n as [|n IH]; intro H; [lia|].
  rewrite total_S. destruct (Nat.eqb_spec a n) as [->|Hne].
  - assert (Hz : total (fun i => if (n =? i)%nat then x else 0) n == 0).
    { rewrite <- (total_zero n). apply total_ext. intros i Hi.
      destruct (Nat.eqb_spec n i); [lia|reflexivity]. }
    rewrite Hz. lra.
  - rewrite IH by lia. lra.
Qed.

Lemma total_scatter (e : Pair) (x y : Q) (n : nat) :
  (fst e < n)%nat -> (snd e < n)%nat ->
  total (fun i => scatter e i x y) n == x + y.
Proof.
  intros H1 H2. unfold scatter. rewrite total_plus.
  rewrite (total_at (fst e) x n H1), (total_at (snd e) y n H2). reflexivity.
Qed.

(** summing what the pairs scatter over all dofs gives the sum over the
    pairs of what each pair scatters *)
Lemma total_of_scattered (x y : Pair -> Q) (l : list Pair) (n : nat) :
  (forall e, In e l -> (fst e < n)%nat /\ (snd e < n)%nat) ->
  total (fun i => Sum (map (fun e => scatter e i (x e) (y e)) l)) n ==
  Sum (map (fun e => x e + y e) l).
Proof.
  induction l as [|e l IH]; intro H; simpl.
  - apply total_zero.
  - rewrite total_plus, IH by (intros e' He'; apply H; right; exact He').
    destruct (H e (or_introl eq_refl)) as [H1 H2].
    rewrite (total_scatter e (x e) (y e) n H1 H2). reflexivity.
Qed.

Section Conservation.

Variable s : Stencil.
Variable ph : Physics.
Variable u : Vector.

(** both endpoints of a pair see the same limiter coefficient *)
Lemma alpha_symmetric (e : Pair) : alpha_ij s ph u e == alpha_ji s ph u e.
Proof.
  unfold alpha_ij, alpha_ji. apply Q.min_comm.
Qed.

(** the two limited fluxes of a pair cancel *)
Lemma limited_pair_cancels (e : Pair) :
  alpha_ij s ph u e * F_ij ph u e + alpha_ji s ph u e * F_ji ph u e == 0.
Proof.
  rewrite <- alpha_symmetric. unfold F_ji. ring.
Qed.

Lemma pairs_cancel (l : list Pair) :
  Sum (map (fun e => alpha_ij s ph u e * F_ij ph u e +
                     alpha_ji s ph u e * F_ji ph u e) l) == 0.
Proof.
  induction l as [|e l IH]; simpl; [reflexivity|].
  rewrite IH, limited_pair_cancels. lra.
Qed.

Lemma low_order_pairs_cancel (l : list Pair) :
  Sum (map (fun e => lowOrderFlux ph u e + - lowOrderFlux ph u e) l) == 0.
Proof.
  induction l as [|e l IH]; simpl; [reflexivity|]. rewrite IH. lra.
Qed.

(** C3: in every evaluation of the Monolithic Convex Limiting scheme, for
    every state, [F_ji = -F_ij] and [alpha_ij = alpha_ji] for every pair,
    so the limited antidiffusive contributions summed over the pairs are
    exactly zero; and when the pairs join dofs of the space and the lumped
    masses are positive, the antidiffusive contributions summed over the
    dofs are zero and the total mass changes as under the low-order update
    alone. *)
Theorem limiter_conserves_mass (mass : Vector) (n : nat) :
  (forall e, F_ji ph u e == - F_ij ph u e) /\
  (forall e, alpha_ij s ph u e == alpha_ji s ph u e) /\
  Sum (map (fun e => alpha_ij s ph u e * F_ij ph u e +
                     alpha_ji s ph u e * F_ji ph u e) (pairs s)) == 0 /\
  (fits s ph mass n ->
   total (antidiffusion s ph u) n == 0 /\
   total (fun i => val mass i * dudt s ph mass u i) n ==
   total (lowOrderUpdate s ph u) n).
Proof.
  split; [intro e; reflexivity|]. split; [exact alpha_symmetric|].
  split; [apply pairs_cancel|].
  intros (Hin & Hmass & _).
  assert (Ha : total (antidiffusion s ph u) n == 0).
  { unfold antidiffusion.
    rewrite (total_of_scattered
               (fun e => alpha_ij s ph u e * F_ij ph u e)
               (fun e => alpha_ji s ph u e * F_ji ph u e) (pairs s) n Hin).
    apply pairs_cancel. }
  split; [exact Ha|].
  rewrite (total_ext _ (fun i => lowOrderUpdate s ph u i
                                 + antidiffusion s ph u i) n).
  - rewrite total_plus, Ha. lra.
  - intros i Hi. unfold dudt. apply Qmult_div_r.
    intro Hz. specialize (Hmass i Hi). rewrite Hz in Hmass.
    apply (Qlt_irrefl 0 Hmass).
Qed.

End Conservation.

Lemma ring_fits : fits ring advection unit_mass 3.
Proof.
  split; [|split].
  - intros e [<-|[<-|[<-|[]]]]; simpl; lia.
  - intros [|[|[|i]]] Hi; try reflexivity. lia.
  - intros. discriminate.
Qed.

Lemma limiter_conserves_mass_witness :
  total (antidiffusion ring advection step_data) 3 == 0 /\
  total (fun i => val unit_mass i * dudt ring advection unit_mass step_data i)
        3 ==
  total (lowOrderUpdate ring advection step_data) 3.
Proof.
  apply (limiter_conserves_mass ring advection step_data unit_mass 3).
  exact ring_fits.
Defined.

(** ** Bounds *)

(** what [expand] does to a pair of bounds: it widens it, and the result
    holds the values of all the dofs it went over *)
Lemma expand_spec (u : Vector) (js : list nat) :
  forall b,
    fst (expand u js b) <= fst b /\ snd b <= snd (expand u js b) /\
    forall j, In j js ->
              fst (expand u js b) <= val u j <= snd (expand u js b).
Proof.
  unfold expand.
  induction js as [|k js IH]; intro b; simpl.
  - split; [apply Qle_refl|]. split; [apply Qle_refl|]. intros j [].
  - destruct (IH (Qmin (fst b) (val u k), Qmax (snd b) (val u k)))
      as (H1 & H2 & H3). simpl in H1, H2.
    assert (Hl := Q.le_min_l (fst b) (val u k)).
    assert (Hr := Q.le_min_r (fst b) (val u k)).
    assert (Hl' := Q.le_max_l (snd b) (val u k)).
    assert (Hr' := Q.le_max_r (snd b) (val u k)).
    split; [lra|]. split; [lra|].
    intros j [<-|Hj]; [lra|apply H3; exact Hj].
Qed.

(** [expand] stays inside any range that holds the bounds it starts from
    and the values it goes over *)
Lemma expand_range (u : Vector) (lo hi : Q) (js : list nat) :
  forall b,
    lo <= fst b -> snd b <= hi ->
    (forall j, In j js -> lo <= val u j <= hi) ->
    lo <= fst (expand u js b) /\ snd (expand u js b) <= hi.
Proof.
  unfold expand.
  induction js as [|k js IH]; intros b Hlo Hhi Hjs; simpl; [split; assumption|].
  destruct (Hjs k (or_introl eq_refl)) as [Hk1 Hk2].
  apply IH; simpl.
  - apply Q.min_glb; assumption.
  - apply Q.max_lub; assumption.
  - intros j Hj. apply Hjs. right. exact Hj.
Qed.

Lemma neighbors_app (l1 l2 : list Pair) (i : nat) :
  neighbors (l1 ++ l2) i = neighbors l1 i ++ neighbors l2 i.
Proof.
  unfold neighbors. apply flat_map_app.
Qed.

Lemma In_neighbors (l : list Pair) (i j : nat) :
  In j (neighbors l i) <->
  exists e, In e l /\ ((fst e = i /\ snd e = j) \/ (snd e = i /\ fst e = j)).
Proof.
  unfold neighbors. rewrite in_flat_map. split.
  - intros (e & He & Hj). exists e. split; [exact He|].
    apply in_app_or in Hj. destruct Hj as [Hj|Hj].
    + destruct (Nat.eqb_spec (fst e) i); [|contradiction].
      destruct Hj as [Hj|[]]. left. split; assumption.
    + destruct (Nat.eqb_spec (snd e) i); [|contradiction].
      destruct Hj as [Hj|[]]. right. split; assumption.
  - intros (e & He & [[H1 H2]|[H1 H2]]); exists e; (split; [exact He|]);
      apply in_or_app.
    + left. rewrite H1, Nat.eqb_refl. left. exact H2.
    + right. rewrite H1, Nat.eqb_refl. left. exact H2.
Qed.

Lemma refresh_expand (s : Stencil) (u : Vector) (i : nat) :
  refresh s u i = expand u (neighbors (pairs s) i) (val u i, val u i).
Proof.
  unfold refresh, pairs, expand. rewrite neighbors_app, fold_left_app.
  reflexivity.
Qed.

(** the bounds of a dof hold its own value *)
Lemma bounds_hold_own_value (s : Stencil) (u : Vector) (i : nat) :
  m_ s u i <= val u i <= M_ s u i.
Proof.
  unfold m_, M_. rewrite refresh_expand.
  destruct (expand_spec u (neighbors (pairs s) i) (val u i, val u i))
    as (H1 & H2 & _). split; assumption.
Qed.

(** the bounds of a dof hold the values of its neighbors *)
Lemma bounds_hold_neighbors (s : Stencil) (u : Vector) (e : Pair) :
  In e (pairs s) ->
  m_ s u (fst e) <= val u (snd e) <= M_ s u (fst e) /\
  m_ s u (snd e) <= val u (fst e) <= M_ s u (snd e).
Proof.
  intro He. unfold m_, M_. rewrite !refresh_expand. split.
  - apply expand_spec. apply In_neighbors. exists e. tauto.
  - apply expand_spec. apply In_neighbors. exists e. tauto.
Qed.

(** the bounds of a dof lie inside any range that holds the state *)
Lemma bounds_within_range (s : Stencil) (u : Vector) (lo hi : Q) (i : nat) :
  (forall e, In e (pairs s) ->
             (fst e < List.length u)%nat /\ (snd e < List.length u)%nat) ->
  (forall k, (k < List.length u)%nat -> lo <= val u k <= hi) ->
  (i < List.length u)%nat ->
  lo <= m_ s u i /\ M_ s u i <= hi.
Proof.
  intros Hin Hr Hi. unfold m_, M_. rewrite refresh_expand.
  apply expand_range; simpl; try apply Hr; try exact Hi.
  intros j Hj. apply In_neighbors in Hj.
  destruct Hj as (e & He & [[_ <-]|[_ <-]]); apply Hr; apply Hin; exact He.
Qed.

(** ** The limiter *)

(** [largest_alpha lo hi f] lies in [0, 1], and every coefficient between 0
    and it keeps [a * f] inside [lo, hi] *)
Lemma largest_alpha_spec (lo hi f : Q) :
  lo <= 0 -> 0 <= hi ->
  0 <= largest_alpha lo hi f <= 1 /\
  forall a, 0 <= a <= largest_alpha lo hi f -> lo <= a * f <= hi.
Proof.
  intros Hlo Hhi. unfold largest_alpha.
  destruct (Qltb 0 f) eqn:Hp; [|destruct (Qltb f 0) eqn:Hn].
  - apply Qltb_lt in Hp.
    assert (Hq : 0 <= hi / f).
    { apply Qle_shift_div_l; [exact Hp|]. lra. }
    split.
    + split; [apply Q.min_glb; lra|apply Q.le_min_l].
    + intros a [Ha0 Ha].
      assert (Ha' : a <= hi / f)
        by (eapply Qle_trans; [exact Ha|apply Q.le_min_r]).
      assert (Hm : a * f <= hi / f * f)
        by (apply Qmult_le_compat_r; [exact Ha'|lra]).
      assert (Hd : hi / f * f == hi) by (field; lra).
      assert (H0 : 0 <= a * f) by (apply Qmult_le_0_compat; lra).
      lra.
  - apply Qltb_lt in Hn.
    assert (Hq : 0 <= lo / f).
    { assert (Hd : lo / f == (- lo) / (- f)) by (field; lra).
      rewrite Hd. apply Qle_shift_div_l; lra. }
    split.
    + split; [apply Q.min_glb; lra|apply Q.le_min_l].
    + intros a [Ha0 Ha].
      assert (Ha' : a <= lo / f)
        by (eapply Qle_trans; [exact Ha|apply Q.le_min_r]).
      assert (Hm : a * (- f) <= lo / f * (- f))
        by (apply Qmult_le_compat_r; [exact Ha'|lra]).
      assert (Hd : lo / f * (- f) == - lo) by (field; lra).
      assert (H0 : 0 <= a * (- f)) by (apply Qmult_le_0_compat; lra).
      lra.
  - apply Qltb_ge in Hp. apply Qltb_ge in Hn.
    assert (Hf : f == 0) by lra.
    split; [lra|]. intros a _. rewrite Hf. lra.
Qed.

(** no coefficient of [0, 1] above [largest_alpha lo hi f] keeps [a * f]
    inside [lo, hi] *)
Lemma largest_alpha_is_largest (lo hi f a : Q) :
  0 <= a <= 1 -> lo <= a * f <= hi -> a <= largest_alpha lo hi f.
Proof.
  intros [Ha0 Ha1] [Hl Hh]. unfold largest_alpha.
  destruct (Qltb 0 f) eqn:Hp; [|destruct (Qltb f 0) eqn:Hn].
  - apply Qltb_lt in Hp. apply Q.min_glb; [exact Ha1|].
    apply Qle_shift_div_l; assumption.
  - apply Qltb_lt in Hn. apply Q.min_glb; [exact Ha1|].
    assert (Hd : lo / f == (- lo) / (- f)) by (field; lra).
    rewrite Hd. apply Qle_shift_div_l; lra.
  - exact Ha1.
Qed.

Lemma Sum_le (A : Type) (f g : A -> Q) (l : list A) :
  (forall e, In e l -> f e <= g e) -> Sum (map f l) <= Sum (map g l).
Proof.
  induction l as [|e l IH]; intro H; simpl; [apply Qle_refl|].
  apply Qplus_le_compat.
  - apply H. left. reflexivity.
  - apply IH. intros e' He'. apply H. right. exact He'.
Qed.

Lemma Sum_plus (A : Type) (f g : A -> Q) (l : list A) :
  Sum (map f l) + Sum (map g l) == Sum (map (fun e => f e + g e) l).
Proof.
  induction l as [|e l IH]; simpl; [lra|]. rewrite <- IH. lra.
Qed.

Lemma Sum_scale (A : Type) (f : A -> Q) (c : Q) (l : list A) :
  Sum (map (fun e => f e * c) l) == Sum (map f l) * c.
Proof.
  induction l as [|e l IH]; simpl; [lra|]. rewrite IH. ring.
Qed.

Section BoundPreservation.

Variable s : Stencil.
Variable ph : Physics.
Variable mass : Vector.
Variable u : Vector.

Hypothesis Hfits : fits s ph mass (List.length u).

Lemma diffusion_not_negative (e : Pair) : 0 <= d_ ph u e.
Proof.
  unfold d_. apply Hfits.
Qed.

(** the limited flux of a pair respects the slack of both endpoints *)
Lemma limited_flux_within_slack (e : Pair) :
  In e (pairs s) ->
  (d_ ph u e * (m_ s u (fst e) - val u (snd e))
     <= alpha_ij s ph u e * F_ij ph u e
     <= d_ ph u e * (M_ s u (fst e) - val u (snd e))) /\
  (d_ ph u e * (m_ s u (snd e) - val u (fst e))
     <= alpha_ji s ph u e * F_ji ph u e
     <= d_ ph u e * (M_ s u (snd e) - val u (fst e))).
Proof.
  intro He.
  destruct (bounds_hold_neighbors s u e He) as [[H1 H2] [H3 H4]].
  assert (Hd := diffusion_not_negative e).
  assert (L1 : d_ ph u e * (m_ s u (fst e) - val u (snd e)) <= 0).
  { assert (K : 0 <= d_ ph u e * (val u (snd e) - m_ s u (fst e)))
      by (apply Qmult_le_0_compat; lra).
    lra. }
  assert (U1 : 0 <= d_ ph u e * (M_ s u (fst e) - val u (snd e)))
    by (apply Qmult_le_0_compat; lra).
  assert (L2 : d_ ph u e * (m_ s u (snd e) - val u (fst e)) <= 0).
  { assert (K : 0 <= d_ ph u e * (val u (fst e) - m_ s u (snd e)))
      by (apply Qmult_le_0_compat; lra).
    lra. }
  assert (U2 : 0 <= d_ ph u e * (M_ s u (snd e) - val u (fst e)))
    by (apply Qmult_le_0_compat; lra).
  destruct (largest_alpha_spec _ _ (F_ij ph u e) L1 U1) as [[A1 _] S1].
  destruct (largest_alpha_spec _ _ (F_ji ph u e) L2 U2) as [[A2 _] S2].
  fold (alpha_endpoint s ph u e (fst e) (snd e) (F_ij ph u e)) in A1, S1.
  fold (alpha_endpoint s ph u e (snd e) (fst e) (F_ji ph u e)) in A2, S2.
  split.
  - apply S1. unfold alpha_ij. split.
    + apply Q.min_glb; assumption.
    + apply Q.le_min_l.
  - apply S2. unfold alpha_ji. split.
    + apply Q.min_glb; assumption.
    + apply Q.le_min_l.
Qed.

(** what a pair adds to a dof lies between the diffusion coefficient times
    the slack of the dof below and above its value *)
Lemma pair_within_slack (e : Pair) (i : nat) :
  In e (pairs s) ->
  scatter e i (d_ ph u e) (d_ ph u e) * (m_ s u i - val u i)
    <= scatter e i (into_first s ph u e) (into_second s ph u e)
    <= scatter e i (d_ ph u e) (d_ ph u e) * (M_ s u i - val u i).
Proof.
  intro He.
  destruct (limited_flux_within_slack e He) as [[H1 H2] [H3 H4]].
  destruct (bounds_hold_own_value s u i) as [Hm HM].
  assert (Hd := diffusion_not_negative e).
  unfold scatter, into_first, into_second, lowOrderFlux.
  destruct (Nat.eqb_spec (fst e) i) as [E1|_];
    destruct (Nat.eqb_spec (snd e) i) as [E2|_];
    try rewrite E1 in *; try rewrite E2 in *; split; lra.
Qed.

Lemma update_as_pairs (i : nat) :
  lowOrderUpdate s ph u i + antidiffusion s ph u i ==
  Sum (map (fun e => scatter e i (into_first s ph u e) (into_second s ph u e))
           (pairs s)).
Proof.
  unfold lowOrderUpdate, antidiffusion. rewrite Sum_plus.
  apply Sum_Qeq. induction (pairs s) as [|e l IH]; simpl; constructor.
  - unfold scatter, into_first, into_second.
    destruct (fst e =? i)%nat; destruct (snd e =? i)%nat; lra.
  - exact IH.
Qed.

(** the update of a dof, times its mass, lies between its degree times the
    slack below and above its value *)
Lemma update_within_slack (i : nat) :
  degree s ph u i * (m_ s u i - val u i)
    <= lowOrderUpdate s ph u i + antidiffusion s ph u i
    <= degree s ph u i * (M_ s u i - val u i).
Proof.
  rewrite update_as_pairs. unfold degree.
  rewrite <- !Sum_scale. split; apply Sum_le; intros e He;
    apply (pair_within_slack e i He).
Qed.

(** one forward Euler step under the low-order CFL restriction keeps a dof
    inside its bounds *)
Lemma Euler_value_within_bounds (h : Q) (i : nat) :
  0 <= h -> CFL s ph mass h u -> (i < List.length u)%nat ->
  m_ s u i <= val u i + h * dudt s ph mass u i <= M_ s u i.
Proof.
  intros Hh Hcfl Hi. specialize (Hcfl i Hi).
  destruct Hfits as (_ & Hmass & _). specialize (Hmass i Hi).
  destruct (update_within_slack i) as [Hlo Hhi].
  destruct (bounds_hold_own_value s u i) as [Hm HM].
  unfold dudt.
  set (R := lowOrderUpdate s ph u i + antidiffusion s ph u i) in *.
  set (D := degree s ph u i) in *.
  set (w := val mass i) in *.
  assert (Hq : h * (R / w) == h * R / w) by (field; lra).
  rewrite Hq. split.
  - assert (H1 : D * (m_ s u i - val u i) * h <= R * h)
      by (apply Qmult_le_compat_r; assumption).
    assert (H2 : w * (m_ s u i - val u i) <= h * D * (m_ s u i - val u i)).
    { assert (K : h * D * (val u i - m_ s u i) <= w * (val u i - m_ s u i))
        by (apply Qmult_le_compat_r; lra).
      lra. }
    assert (H3 : m_ s u i - val u i <= h * R / w).
    { apply Qle_shift_div_l; [exact Hmass|]. lra. }
    lra.
  - assert (H1 : R * h <= D * (M_ s u i - val u i) * h)
      by (apply Qmult_le_compat_r; assumption).
    assert (H2 : h * D * (M_ s u i - val u i) <= w * (M_ s u i - val u i))
      by (apply Qmult_le_compat_r; lra).
    assert (H3 : h * R / w <= M_ s u i - val u i).
    { apply Qle_shift_div_r; [exact Hmass|]. lra. }
    lra.
Qed.

End BoundPreservation.

(** ** Forward Euler steps of the limited scheme *)

Lemma val_axpy (h : Q) (u : Vector) :
  forall (g : nat -> Q) (i : nat),
    (i < List.length u)%nat ->
    val (axpy h u (map g (seq 0 (List.length u)))) i = val u i + h * g i.
Proof.
  unfold val, axpy.
  induction u as [|a u IH]; intros g i Hi; simpl in *; [lia|].
  destruct i as [|i]; [reflexivity|].
  rewrite <- seq_shift, map_map. apply (IH (fun j => g (S j))). lia.
Qed.

Lemma length_euler (s : Stencil) (ph : Physics) (mass : Vector)
  (sch : EvolutionScheme) (h : Q) (u : Vector) :
  List.length (euler s ph mass sch h u) = List.length u.
Proof.
  unfold euler, axpy, Mult.
  rewrite length_map, length_combine, length_map, length_seq. lia.
Qed.

Lemma euler_value (s : Stencil) (ph : Physics) (mass : Vector) (h : Q)
  (u : Vector) (i : nat) :
  (i < List.length u)%nat ->
  val (euler s ph mass MCL h u) i = val u i + h * dudt s ph mass u i.
Proof.
  intro Hi. unfold euler, Mult. simpl. apply val_axpy. exact Hi.
Qed.

Lemma length_march (s : Stencil) (ph : Physics) (mass : Vector) (h : Q)
  (k : nat) (u0 : Vector) :
  List.length (march s ph mass h k u0) = List.length u0.
Proof.
  induction k as [|k IH]; simpl; [reflexivity|].
  rewrite length_euler. exact IH.
Qed.

(** every entry of a state lies between its least and its largest entry *)
Lemma least_largest (x : Q) (u : Vector) :
  forall k, (k < List.length u)%nat ->
            least x u <= val u k <= largest x u.
Proof.
  unfold val, least, largest.
  induction u as [|a u IH]; intros k Hk; simpl in *; [lia|].
  assert (Hl := Q.le_min_l a (fold_right Qmin x u)).
  assert (Hr := Q.le_min_r a (fold_right Qmin x u)).
  assert (Hl' := Q.le_max_l a (fold_right Qmax x u)).
  assert (Hr' := Q.le_max_r a (fold_right Qmax x u)).
  destruct k as [|k]; [lra|].
  assert (Hk' : (k < List.length u)%nat) by lia.
  specialize (IH k Hk'). lra.
Qed.

(** one step keeps the state inside a range that holds it *)
Lemma euler_within_range (s : Stencil) (ph : Physics) (mass : Vector)
  (h lo hi : Q) (u : Vector) :
  fits s ph mass (List.length u) -> 0 <= h -> CFL s ph mass h u ->
  (forall k, (k < List.length u)%nat -> lo <= val u k <= hi) ->
  forall i, (i < List.length u)%nat ->
            lo <= val (euler s ph mass MCL h u) i <= hi.
Proof.
  intros Hfits Hh Hcfl Hr i Hi.
  rewrite (euler_value s ph mass h u i Hi).
  destruct (Euler_value_within_bounds s ph mass u Hfits h i Hh Hcfl Hi)
    as [H1 H2].
  destruct Hfits as (Hin & _).
  destruct (bounds_within_range s u lo hi i Hin Hr Hi) as [H3 H4].
  lra.
Qed.

Lemma march_within_range (s : Stencil) (ph : Physics) (mass : Vector)
  (h lo hi : Q) (u0 : Vector) (k : nat) :
  fits s ph mass (List.length u0) -> 0 <= h ->
  (forall j, (j < k)%nat -> CFL s ph mass h (march s ph mass h j u0)) ->
  (forall i, (i < List.length u0)%nat -> lo <= val u0 i <= hi) ->
  forall i, (i < List.length u0)%nat ->
            lo <= val (march s ph mass h k u0) i <= hi.
Proof.
  intros Hfits Hh. induction k as [|k IH]; intros Hcfl Hr i Hi; simpl.
  - apply Hr. exact Hi.
  - apply euler_within_range.
    + rewrite length_march. exact Hfits.
    + exact Hh.
    + apply Hcfl. lia.
    + intros j Hj. rewrite length_march in Hj.
      apply IH; [intros j' Hj'; apply Hcfl; lia|exact Hr|exact Hj].
    + rewrite length_march. exact Hi.
Qed.

(** C4: a run of forward Euler steps of the Monolithic Convex Limiting
    scheme from the initial data [u0], every step under the low-order CFL
    restriction [h * degree_i <= mass_i] of its state.  The step from the
    state after [k] steps puts every dof inside its bounds [(m_i, M_i)]
    computed from that state, and inside the range between the least and
    the largest entry of the initial data. *)
Theorem limited_Euler_step_is_bounded (s : Stencil) (ph : Physics)
  (mass : Vector) (h : Q) (u0 : Vector) (k i : nat) :
  fits s ph mass (List.length u0) ->
  0 <= h ->
  (forall j, (j <= k)%nat -> CFL s ph mass h (march s ph mass h j u0)) ->
  (i < List.length u0)%nat ->
  (m_ s (march s ph mass h k u0) i
     <= val (euler s ph mass MCL h (march s ph mass h k u0)) i
     <= M_ s (march s ph mass h k u0) i) /\
  (least (val u0 i) u0
     <= val (euler s ph mass MCL h (march s ph mass h k u0)) i
     <= largest (val u0 i) u0).
Proof.
  intros Hfits Hh Hcfl Hi. split.
  - rewrite euler_value by (rewrite length_march; exact Hi).
    apply Euler_value_within_bounds.
    + rewrite length_march. exact Hfits.
    + exact Hh.
    + apply Hcfl. lia.
    + rewrite length_march. exact Hi.
  - apply (march_within_range s ph mass h _ _ u0 (S k) Hfits Hh).
    + intros j Hj. apply Hcfl. lia.
    + apply least_largest.
    + exact Hi.
Qed.

Lemma ring_CFL (u : Vector) :
  List.length u = 3%nat -> CFL ring advection unit_mass (1 # 2) u.
Proof.
  intros Hu i Hi. rewrite Hu in Hi.
  destruct i as [|[|[|i]]]; try lia; vm_compute; discriminate.
Qed.

Lemma limited_Euler_step_is_bounded_witness :
  0 <= val (euler ring advection unit_mass MCL (1 # 2)
              (march ring advection unit_mass (1 # 2) 1 step_data)) 2 <= 1.
Proof.
  destruct (limited_Euler_step_is_bounded ring advection unit_mass (1 # 2)
              step_data 1 2) as [_ H].
  - exact ring_fits.
  - discriminate.
  - intros j _. apply ring_CFL. apply length_march.
  - simpl. lia.
  - exact H.
Defined.

(** the limiter coefficient of a pair lies in [0, 1] *)
Lemma alpha_in_unit_interval (s : Stencil) (ph : Physics) (mass u : Vector)
  (e : Pair) :
  fits s ph mass (List.length u) -> In e (pairs s) ->
  0 <= alpha_ij s ph u e <= 1.
Proof.
  intros Hfits He.
  destruct (bounds_hold_neighbors s u e He) as [[H1 H2] [H3 H4]].
  assert (Hd := diffusion_not_negative s ph mass u Hfits e).
  assert (L1 : d_ ph u e * (m_ s u (fst e) - val u (snd e)) <= 0).
  { assert (K : 0 <= d_ ph u e * (val u (snd e) - m_ s u (fst e)))
      by (apply Qmult_le_0_compat; lra).
    lra. }
  assert (U1 : 0 <= d_ ph u e * (M_ s u (fst e) - val u (snd e)))
    by (apply Qmult_le_0_compat; lra).
  assert (L2 : d_ ph u e * (m_ s u (snd e) - val u (fst e)) <= 0).
  { assert (K : 0 <= d_ ph u e * (val u (fst e) - m_ s u (snd e)))
      by (apply Qmult_le_0_compat; lra).
    lra. }
  assert (U2 : 0 <= d_ ph u e * (M_ s u (snd e) - val u (fst e)))
    by (apply Qmult_le_0_compat; lra).
  destruct (largest_alpha_spec _ _ (F_ij ph u e) L1 U1) as [[A1 B1] _].
  destruct (largest_alpha_spec _ _ (F_ji ph u e) L2 U2) as [[A2 _] _].
  unfold alpha_ij, alpha_endpoint. split.
  - apply Q.min_glb; assumption.
  - eapply Qle_trans; [apply Q.le_min_l|exact B1].
Qed.

(** on the ring, one step of the Standard scheme from the step function
    leaves the range [0, 1] of the data, one step of the limited scheme
    does not *)
Example Standard_overshoots_on_ring :
  val (euler ring advection unit_mass Standard (1 # 2) step_data) 2 < 0 /\
  0 <= val (euler ring advection unit_mass MCL (1 # 2) step_data) 2.
Proof.
  split; vm_compute; [reflexivity|discriminate].
Qed.

(** * More about the drivers *)

(** ** The iterations of the time loop *)



Lemma after_S (E : Collaborators) (r : Ready) (k : nat) (st : LoopState) :
  after E r (S k) st = after E r k (advance E r st).
Proof.
  unfold after. apply Nat.iter_succ_r.
Qed.

Lemma flat_map_seq_S (B : Type) (f : nat -> list B) (k : nat) :
  flat_map f (seq 1 (S k)) =
  f 1%nat ++ flat_map (fun j => f (S j)) (seq 1 k).
Proof.
  cbn [seq flat_map]. f_equal.
  rewrite <- seq_shift, flat_map_concat_map, map_map, <- flat_map_concat_map.
  reflexivity.
Qed.

(** a loop that completes has run [k >= 1] iterations, none of them but the
    last has set [done], and its output is what [report] gave for each *)
Lemma time_loop_Completed (d : Driver) (E : Collaborators) (r : Ready)
  (fuel : nat) :
  forall out st0 pre st,
    time_loop d E r fuel out st0 = Completed pre st ->
    exists k,
      (1 <= k <= fuel)%nat /\
      st = after E r k st0 /\
      st_done st = true /\
      (forall j, (1 <= j < k)%nat -> st_done (after E r j st0) = false) /\
      (forall j, (1 <= j <= k)%nat ->
                 report d r (after E r j st0) <> None) /\
      pre = out ++
            flat_map (fun j => match report d r (after E r j st0) with
                               | Some lines => lines
                               | None => []
                               end) (seq 1 k).
Proof.
  induction fuel as [|fuel IH]; intros out st0 pre st H; [discriminate|].
  cbn [time_loop] in H.
  destruct (report d r (advance E r st0)) as [lines|] eqn:Hrep;
    [|discriminate].
  destruct (st_done (advance E r st0)) eqn:Hd.
  - injection H as <- <-. exists 1%nat.
    split; [lia|]. split; [reflexivity|]. split; [exact Hd|].
    split; [intros j Hj; lia|]. split.
    + intros j Hj. assert (j = 1)%nat as -> by lia.
      change (after E r 1 st0) with (advance E r st0). rewrite Hrep.
      discriminate.
    + cbn [seq flat_map]. change (after E r 1 st0) with (advance E r st0).
      rewrite Hrep, app_nil_r. reflexivity.
  - destruct (IH _ _ _ _ H) as (k & Hk & Hst & Hdone & Hbefore & Hrepk & Hpre).
    exists (S k). split; [lia|]. split; [rewrite after_S; exact Hst|].
    split; [exact Hdone|]. split; [|split].
    + intros j Hj. destruct j as [|[|j]]; [lia|exact Hd|].
      rewrite after_S. apply Hbefore. lia.
    + intros j Hj. destruct j as [|[|j]]; [lia| |].
      * change (after E r 1 st0) with (advance E r st0). rewrite Hrep.
        discriminate.
      * rewrite after_S. apply Hrepk. lia.
    + rewrite Hpre, flat_map_seq_S.
      change (after E r 1 st0) with (advance E r st0).
      rewrite Hrep, <- app_assoc. f_equal. f_equal.
      apply flat_map_ext. intro j. rewrite after_S. reflexivity.
Qed.




Lemma setup_starts_at_zero (d : Driver) (E : Collaborators)
  (args : list Arg) (r : Ready) :
  setup d E args = inr r ->
  st_ti (rd_state r) = 0%Z /\ st_t (rd_state r) = 0 /\
  st_res (rd_state r) = None.
Proof.
  unfold setup.
  destruct (Parse d args defaults) as [o|]; [|discriminate].
  destruct (select_solver (odeSolverType (config o))); [|discriminate].
  destruct (select_system E o); [|discriminate].
  intro H. injection H as <-. repeat split.
Qed.



(** ** The time at the end of the loop *)

Lemma advance_time_le (E : Collaborators) (r : Ready) (st : LoopState) :
  (forall solver evol u t h, snd (fst (Step E solver evol u t h)) <= t + h) ->
  st_t (advance E r st) <= st_t st + dt (config (rd_options r)) /\
  st_t (advance E r st) <= tFinal (config (rd_options r)).
Proof.
  intro Hstep. rewrite advance_time. unfold step_of.
  assert (H := Hstep (rd_solver r) (st_evol st) (st_u st) (st_t st)
                 (min (dt (config (rd_options r)))
                      (tFinal (config (rd_options r)) - st_t st))).
  assert (Hl := min_le_l (dt (config (rd_options r)))
                  (tFinal (config (rd_options r)) - st_t st)).
  assert (Hr := min_le_r (dt (config (rd_options r)))
                  (tFinal (config (rd_options r)) - st_t st)).
  split; lra.
Qed.

(** A transient run (no steady state) whose integrator never advances the
    time by more than its step ends the time loop at a time between
    [config.tFinal - 1e-8 * config.dt] and [config.tFinal]. *)
Theorem final_time_is_tFinal (d : Driver) (E : Collaborators)
  (args : list Arg) (fuel : nat) (r : Ready) (pre : list Event)
  (st : LoopState) :
  setup d E args = inr r ->
  SteadyState (rd_hyp r) = false ->
  (forall solver evol u t h, snd (fst (Step E solver evol u t h)) <= t + h) ->
  time_loop d E r fuel (rd_out r) (rd_state r) = Completed pre st ->
  tFinal (config (rd_options r))
    - (1 # 100000000) * dt (config (rd_options r)) <= st_t st
  /\ st_t st <= tFinal (config (rd_options r)).
Proof.
  intros Hr Hs Hstep Hl.
  destruct (time_loop_Completed d E r fuel _ _ _ _ Hl)
    as (k & Hk & Hst & Hd & _).
  destruct k as [|k]; [lia|].
  unfold after in Hst. rewrite Nat.iter_succ in Hst.
  set (prev := Nat.iter k (advance E r) (rd_state r)) in Hst.
  subst st. split.
  - rewrite (advance_transient E r prev Hs) in Hd |- *. simpl in Hd |- *.
    apply Qle_bool_iff. exact Hd.
  - apply advance_time_le. exact Hstep.
Qed.

Lemma final_time_is_tFinal_witness :
  exists r pre st,
    setup Serial (on_ring false true true step_data)
      [ArgTimeStep (1 # 2); ArgODESolver 1] = inr r /\
    time_loop Serial (on_ring false true true step_data) r 4 (rd_out r)
      (rd_state r) = Completed pre st /\
    st_t st <= 1.
Proof.
  eexists. eexists. eexists.
  split; [reflexivity|]. split; [reflexivity|].
  apply (final_time_is_tFinal Serial (on_ring false true true step_data)
           [ArgTimeStep (1 # 2); ArgODESolver 1] 4 _ _ _ eq_refl eq_refl
           ring_Step_time eq_refl).
Defined.

(** A transient run with [config.dt <= 0] and [config.tFinal > 0] never
    leaves the time loop when the integrator does not advance the time by
    more than its step: the time stays at or below 0, so [done] is never
    set, whatever number of iterations is allowed. *)
Theorem nonpositive_dt_never_returns (d : Driver) (E : Collaborators)
  (args : list Arg) (fuel : nat) (r : Ready) :
  setup d E args = inr r ->
  SteadyState (rd_hyp r) = false ->
  (forall solver evol u t h, snd (fst (Step E solver evol u t h)) <= t + h) ->
  dt (config (rd_options r)) <= 0 ->
  0 < tFinal (config (rd_options r)) ->
  forall status out, main d E args fuel <> Exit status out.
Proof.
  intros Hr Hs Hstep Hdt HtF status out. unfold main. rewrite Hr.
  destruct (setup_starts_at_zero d E args r Hr) as (_ & Ht0 & _).
  assert (Hloop : forall n o s, st_t s <= 0 ->
            forall pre st, time_loop d E r n o s <> Completed pre st).
  { induction n as [|n IH]; intros o s Hle pre st; [discriminate|].
    cbn [time_loop].
    destruct (advance_time_le E r s Hstep) as [H1 _].
    assert (Hle' : st_t (advance E r s) <= 0) by lra.
    assert (Hd : st_done (advance E r s) = false).
    { rewrite (advance_transient E r s Hs). simpl.
      rewrite <- (advance_time E r s).
      destruct (Qle_bool (tFinal (config (rd_options r))
                          - (1 # 100000000) * dt (config (rd_options r)))
                         (st_t (advance E r s))) eqn:Hq; [|reflexivity].
      apply Qle_bool_iff in Hq. exfalso. lra. }
    destruct (report d r (advance E r s)); [|discriminate].
    rewrite Hd. apply IH. exact Hle'. }
  destruct (time_loop d E r fuel (rd_out r) (rd_state r)) as [pre st| |] eqn:Hl;
    try discriminate.
  exfalso. apply (Hloop fuel (rd_out r) (rd_state r)) with (pre := pre) (st := st).
  - rewrite Ht0. apply Qle_refl.
  - exact Hl.
Qed.

Lemma nonpositive_dt_never_returns_witness :
  main Serial (on_ring false true true step_data)
    [ArgTimeStep 0; ArgODESolver 1] 4 <> Exit 0 [].
Proof.
  apply (nonpositive_dt_never_returns Serial
           (on_ring false true true step_data)
           [ArgTimeStep 0; ArgODESolver 1] 4 _ eq_refl eq_refl
           ring_Step_time).
  - discriminate.
  - reflexivity.
Defined.

(** With [config.tFinal <= 0 <= config.dt] and an integrator that advances
    the time by exactly its step, the time loop still makes one call of the
    integrator, with the step [config.tFinal] (zero or backwards), and this
    first iteration is the last. *)
Theorem nonpositive_tFinal_takes_one_step (d : Driver) (E : Collaborators)
  (args : list Arg) (fuel : nat) (r : Ready) :
  setup d E args = inr r ->
  (forall solver evol u t h,
     snd (fst (Step E solver evol u t h)) == t + h) ->
  0 <= dt (config (rd_options r)) ->
  tFinal (config (rd_options r)) <= 0 ->
  min (dt (config (rd_options r)))
      (tFinal (config (rd_options r)) - st_t (rd_state r))
    == tFinal (config (rd_options r)) /\
  st_t (advance E r (rd_state r)) == tFinal (config (rd_options r)) /\
  time_loop d E r (S fuel) (rd_out r) (rd_state r) =
    Completed (rd_out r ++ show d r (advance E r (rd_state r)))
              (advance E r (rd_state r)).
Proof.
  intros Hr Hstep Hdt HtF.
  destruct (setup_starts_at_zero d E args r Hr) as (_ & Ht0 & _).
  assert (Hmin : min (dt (config (rd_options r)))
                     (tFinal (config (rd_options r)) - st_t (rd_state r))
                 == tFinal (config (rd_options r))).
  { rewrite Ht0. unfold min.
    destruct (Qltb (tFinal (config (rd_options r)) - 0)
                   (dt (config (rd_options r)))) eqn:Hq.
    - lra.
    - apply Qltb_ge in Hq. lra. }
  assert (Ht : st_t (advance E r (rd_state r))
               == tFinal (config (rd_options r))).
  { rewrite advance_time. unfold step_of. rewrite Hstep, Hmin, Ht0. lra. }
  split; [exact Hmin|]. split; [exact Ht|].
  apply time_loop_done. apply advance_done. rewrite Ht. lra.
Qed.

Lemma nonpositive_tFinal_takes_one_step_witness :
  exists r,
    setup Serial (on_ring false true true step_data)
      [ArgTFinal (-1 # 4); ArgODESolver 1] = inr r /\
    st_t (advance (on_ring false true true step_data) r (rd_state r))
      == -1 # 4.
Proof.
  eexists. split; [reflexivity|].
  apply (nonpositive_tFinal_takes_one_step Serial
           (on_ring false true true step_data)
           [ArgTFinal (-1 # 4); ArgODESolver 1] 0 _ eq_refl
           ring_Step_exact).
  - discriminate.
  - discriminate.
Defined.

(** ** What a run writes *)

Lemma count_app (p : Event -> bool) (x y : list Event) :
  count p (x ++ y) = (count p x + count p y)%nat.
Proof.
  unfold count. rewrite filter_app, length_app. reflexivity.
Qed.

Lemma count_none (p q : Event -> bool) (l : list Event) :
  (forall e, q e = true -> p e = false) ->
  forallb q l = true -> count p l = 0%nat.
Proof.
  intros Hpq. unfold count.
  induction l as [|e l IH]; simpl; intro H; [reflexivity|].
  apply andb_true_iff in H. destruct H as [He Hl].
  rewrite (Hpq e He). apply IH. exact Hl.
Qed.

Lemma show_lines (d : Driver) (r : Ready) (st : LoopState) :
  forallb loop_line (show d r st) = true /\
  (root d = false ->
   forallb (fun e => negb (rank0_line e)) (show d r st) = true) /\
  exists before, show d r st = before ++ [VisualizeField (st_u st)].
Proof.
  unfold show, say. destruct (root d); simpl.
  - split; [reflexivity|]. split; [discriminate|].
    eexists [_]. reflexivity.
  - split; [reflexivity|]. split; [reflexivity|].
    exists []. reflexivity.
Qed.

Lemma report_lines (d : Driver) (r : Ready) (st : LoopState)
  (lines : list Event) :
  report d r st = Some lines ->
  forallb loop_line lines = true /\
  (root d = false ->
   forallb (fun e => negb (rank0_line e)) lines = true).
Proof.
  unfold report. destruct (show_lines d r st) as (H1 & H2 & _).
  destruct (st_done st).
  - intro H. injection H as <-. split; assumption.
  - destruct (VisSteps (config (rd_options r)) =? 0)%Z; [discriminate|].
    destruct (Z.rem (st_ti st) (VisSteps (config (rd_options r))) =? 0)%Z;
      intro H; injection H as <-; split; try assumption; reflexivity.
Qed.

(** the time loop only adds time step lines and visualizations to the
    output, and on a rank other than 0 only visualizations *)
Lemma time_loop_lines (d : Driver) (E : Collaborators) (r : Ready)
  (fuel : nat) :
  forall out st,
    exists more,
      loop_output (time_loop d E r fuel out st) = out ++ more /\
      forallb loop_line more = true /\
      (root d = false ->
       forallb (fun e => negb (rank0_line e)) more = true).
Proof.
  induction fuel as [|fuel IH]; intros out st; cbn [time_loop].
  - exists []. rewrite app_nil_r. repeat split; reflexivity.
  - destruct (report d r (advance E r st)) as [lines|] eqn:Hrep.
    + destruct (report_lines d r _ _ Hrep) as [H1 H2].
      destruct (st_done (advance E r st)).
      * exists lines. repeat split; assumption.
      * destruct (IH (out ++ lines) (advance E r st)) as (more & Hm & H3 & H4).
        exists (lines ++ more). rewrite app_assoc. split; [exact Hm|].
        rewrite !forallb_app. split.
        -- rewrite H1, H3. reflexivity.
        -- intro Hroot. rewrite (H2 Hroot), (H4 Hroot). reflexivity.
    + exists []. rewrite app_nil_r. repeat split; reflexivity.
Qed.

(** a completed loop ends with the visualization of its final state *)
Lemma time_loop_ends_with_state (d : Driver) (E : Collaborators) (r : Ready)
  (fuel : nat) :
  forall out st0 pre st,
    time_loop d E r fuel out st0 = Completed pre st ->
    exists before, pre = before ++ [VisualizeField (st_u st)].
Proof.
  induction fuel as [|fuel IH]; intros out st0 pre st H; [discriminate|].
  cbn [time_loop] in H.
  destruct (report d r (advance E r st0)) as [lines|] eqn:Hrep;
    [|discriminate].
  destruct (st_done (advance E r st0)) eqn:Hd.
  - injection H as <- <-. unfold report in Hrep. rewrite Hd in Hrep.
    injection Hrep as <-.
    destruct (show_lines d r (advance E r st0)) as (_ & _ & before & ->).
    exists (out ++ before). rewrite app_assoc. reflexivity.
  - apply (IH _ _ _ _ H).
Qed.

(** the output of [setup] when it reaches the time loop *)
Lemma setup_output (d : Driver) (E : Collaborators) (args : list Arg)
  (r : Ready) :
  setup d E args = inr r ->
  exists n,
    rd_out r =
      (((say d PrintOptions ++ say d (NumberOfUnknowns n)) ++
        (if negb (odeSolverType (config (rd_options r)) =? 1)%Z
            && SteadyState (rd_hyp r)
         then [Warning] else [])) ++
       (if FileOutput (rd_hyp r) then [SaveInitial (u0 (rd_hyp r))] else []))
      ++ [VisualizeField (u0 (rd_hyp r))].
Proof.
  unfold setup.
  destruct (Parse d args defaults) as [o|]; [|discriminate].
  destruct (select_solver (odeSolverType (config o))); [|discriminate].
  destruct (select_system E o) as [hyp|]; [|discriminate].
  intro H. injection H as <-. eexists. reflexivity.
Qed.

(** A run returns 0 or -1 and nothing else.  A run that returns -1 has only
    written the usage, the options, the number of unknowns and the unknown
    identifier: no file, no visualization, no time step. *)
Theorem fatal_run_writes_no_data (d : Driver) (E : Collaborators)
  (args : list Arg) (fuel : nat) (status : Z) (out : list Event) :
  main d E args fuel = Exit status out ->
  status = 0%Z \/
  (status = (-1)%Z /\ forallb early_message out = true /\
   count saves_initial out = 0%nat /\ count saves_final out = 0%nat /\
   count loop_line out = 0%nat).
Proof.
  unfold main. destruct (setup d E args) as [stop|r] eqn:Hs.
  - intro H. subst stop. right.
    assert (He : status = (-1)%Z /\ forallb early_message out = true).
    { revert Hs. unfold setup, say.
      destruct (Parse d args defaults) as [o|].
      - destruct (select_solver (odeSolverType (config o))).
        + destruct (select_system E o); [discriminate|].
          intro H. injection H as <- <-. destruct (root d); split; reflexivity.
        + intro H. injection H as <- <-. destruct (root d); split; reflexivity.
      - intro H. injection H as <- <-. destruct (root d); split; reflexivity. }
    destruct He as [H1 H2]. split; [exact H1|]. split; [exact H2|].
    repeat split; apply (count_none _ early_message); try exact H2;
      intros [] He; try discriminate He; reflexivity.
  - destruct (time_loop d E r fuel (rd_out r) (rd_state r));
      try discriminate.
    intro H. injection H as <- _. left. reflexivity.
Qed.

Lemma fatal_run_writes_no_data_witness :
  forallb early_message
    (output_of (main (Parallel 3) (on_ring false true true step_data)
                  [ArgProblem 4] 2)) = true.
Proof.
  destruct (fatal_run_writes_no_data (Parallel 3)
              (on_ring false true true step_data) [ArgProblem 4] 2
              (-1) [UnknownSystem 4] eq_refl) as [H|(_ & H & _)].
  - discriminate H.
  - exact H.
Defined.

(** In the parallel driver a rank other than 0 writes none of the lines
    under [if (myid == 0)]: no usage, options, number of unknowns, time
    step line, mass difference or error norms, however the run ends. *)
Theorem other_ranks_are_quiet (myid : Z) (E : Collaborators)
  (args : list Arg) (fuel : nat) :
  myid <> 0%Z ->
  forallb (fun e => negb (rank0_line e))
    (output_of (main (Parallel myid) E args fuel)) = true.
Proof.
  intro Hid.
  assert (Hroot : root (Parallel myid) = false)
    by (simpl; apply Z.eqb_neq; exact Hid).
  unfold main. destruct (setup (Parallel myid) E args) as [stop|r] eqn:Hs.
  - revert Hs. unfold setup, say. rewrite Hroot.
    destruct (Parse (Parallel myid) args defaults) as [o|].
    + destruct (select_solver (odeSolverType (config o))).
      * destruct (select_system E o); [discriminate|].
        intro H. injection H as <-. reflexivity.
      * intro H. injection H as <-. reflexivity.
    + intro H. injection H as <-. reflexivity.
  - destruct (setup_output _ E args r Hs) as [n Hout].
    assert (Hrd : forallb (fun e => negb (rank0_line e)) (rd_out r) = true).
    { rewrite Hout. unfold say. rewrite Hroot. simpl.
      destruct (negb (odeSolverType (config (rd_options r)) =? 1)%Z
                && SteadyState (rd_hyp r));
        destruct (FileOutput (rd_hyp r)); reflexivity. }
    destruct (time_loop_lines (Parallel myid) E r fuel (rd_out r)
                (rd_state r)) as (more & Hm & _ & Hq).
    specialize (Hq Hroot).
    destruct (time_loop (Parallel myid) E r fuel (rd_out r) (rd_state r))
      as [pre st| pre | pre st']; simpl in Hm; subst pre; simpl output_of;
      rewrite ?forallb_app, Hrd, Hq; try reflexivity.
    unfold finish, say. rewrite Hroot. simpl.
    destruct (SolutionKnown (rd_hyp r) && FileOutput (rd_hyp r));
      destruct (FileOutput (rd_hyp r)); reflexivity.
Qed.

Lemma other_ranks_are_quiet_witness :
  forallb (fun e => negb (rank0_line e))
    (output_of (main (Parallel 2) (on_ring false true true step_data)
                  [ArgTimeStep (1 # 2); ArgODESolver 1] 3)) = true.
Proof.
  apply (other_ranks_are_quiet 2 (on_ring false true true step_data)
           [ArgTimeStep (1 # 2); ArgODESolver 1] 3).
  discriminate.
Defined.

Lemma count_say (d : Driver) (p : Event -> bool) (e : Event) :
  p e = false -> count p (say d e) = 0%nat.
Proof.
  intro H. unfold say, count. destruct (root d); simpl; [|reflexivity].
  rewrite H. reflexivity.
Qed.

(** A run that completes writes [initial.gf] (with the mesh) once, before
    the time loop, and [final.gf] once, as the last thing it does, exactly
    when the hyperbolic system asks for file output, and never otherwise;
    the state saved in [final.gf] is the state the time loop visualized
    last. *)
Theorem files_follow_FileOutput (d : Driver) (E : Collaborators)
  (args : list Arg) (fuel : nat) (out : list Event) :
  main d E args fuel = Exit 0 out ->
  exists r st before,
    setup d E args = inr r /\
    time_loop d E r fuel (rd_out r) (rd_state r)
      = Completed (before ++ [VisualizeField (st_u st)]) st /\
    count saves_initial out = (if FileOutput (rd_hyp r) then 1 else 0)%nat /\
    count saves_final out = (if FileOutput (rd_hyp r) then 1 else 0)%nat /\
    (FileOutput (rd_hyp r) = true ->
     In (SaveInitial (u0 (rd_hyp r))) (rd_out r) /\
     last out PrintUsage = SaveFinal (st_u st)).
Proof.
  intro Hmain.
  destruct (main_completed d E args fuel out Hmain)
    as (r & pre & st & Hr & Hl & _ & Hout).
  destruct (time_loop_ends_with_state d E r fuel _ _ _ _ Hl) as [before Hb].
  exists r, st, before. split; [exact Hr|]. split; [rewrite <- Hb; exact Hl|].
  destruct (setup_output d E args r Hr) as [n Hrd].
  destruct (time_loop_lines d E r fuel (rd_out r) (rd_state r))
    as (more & Hm & Hlines & _).
  rewrite Hl in Hm. simpl in Hm.
  assert (Hi : count saves_initial more = 0%nat)
    by (apply (count_none _ loop_line);
        [intros [] He; try discriminate He; reflexivity|exact Hlines]).
  assert (Hf : count saves_final more = 0%nat)
    by (apply (count_none _ loop_line);
        [intros [] He; try discriminate He; reflexivity|exact Hlines]).
  subst out. rewrite Hm. unfold finish.
  split; [|split].
  - rewrite !count_app, Hi, Hrd, !count_app, !count_say by reflexivity.
    destruct (negb (odeSolverType (config (rd_options r)) =? 1)%Z
              && SteadyState (rd_hyp r));
      destruct (FileOutput (rd_hyp r));
      destruct (SolutionKnown (rd_hyp r)); simpl;
      rewrite ?count_say by reflexivity; reflexivity.
  - rewrite !count_app, Hf, Hrd, !count_app, !count_say by reflexivity.
    destruct (negb (odeSolverType (config (rd_options r)) =? 1)%Z
              && SteadyState (rd_hyp r));
      destruct (FileOutput (rd_hyp r));
      destruct (SolutionKnown (rd_hyp r)); simpl;
      rewrite ?count_say by reflexivity; reflexivity.
  - intro HF. rewrite HF. split.
    + rewrite Hrd, HF. rewrite !in_app_iff. left. right. left. reflexivity.
    + rewrite !app_assoc. apply last_last.
Qed.

Lemma files_follow_FileOutput_witness :
  exists r st before,
    setup Serial (on_ring false true false step_data)
      [ArgTimeStep (1 # 2); ArgODESolver 1] = inr r /\
    time_loop Serial (on_ring false true false step_data) r 2 (rd_out r)
      (rd_state r) = Completed (before ++ [VisualizeField (st_u st)]) st.
Proof.
  eassert (H : main Serial (on_ring false true false step_data)
                 [ArgTimeStep (1 # 2); ArgODESolver 1] 2 = Exit 0 _)
    by (vm_compute; reflexivity).
  destruct (files_follow_FileOutput Serial
              (on_ring false true false step_data)
              [ArgTimeStep (1 # 2); ArgODESolver 1] 2 _ H)
    as (r & st & before & Hr & Hl & _).
  exists r, st, before. split; assumption.
Defined.

(** ** Runs without steady state *)

Lemma advance_without_check
  (check : FE_Evolution -> Q -> Q -> Vector -> Q * FE_Evolution)
  (E : Collaborators) (r : Ready) (st : LoopState) :
  SteadyState (rd_hyp r) = false ->
  advance (with_ConvergenceCheck check E) r st = advance E r st /\
  st_evol (advance E r st) = st_evol st.
Proof.
  intro Hs. split.
  - rewrite (advance_transient E r st Hs),
      (advance_transient (with_ConvergenceCheck check E) r st Hs).
    reflexivity.
  - rewrite (advance_transient E r st Hs). reflexivity.
Qed.

Lemma time_loop_without_check
  (check : FE_Evolution -> Q -> Q -> Vector -> Q * FE_Evolution)
  (d : Driver) (E : Collaborators) (r : Ready) (fuel : nat) :
  SteadyState (rd_hyp r) = false ->
  forall out st,
    time_loop d (with_ConvergenceCheck check E) r fuel out st =
    time_loop d E r fuel out st.
Proof.
  intro Hs. induction fuel as [|fuel IH]; intros out st; [reflexivity|].
  cbn [time_loop].
  destruct (advance_without_check check E r st Hs) as [-> _].
  destruct (report d r (advance E r st)); [|reflexivity].
  destruct (st_done (advance E r st)); [reflexivity|apply IH].
Qed.

(** A run whose hyperbolic system is not steady-state seeking never calls
    the convergence check: with any other check the run is the same, and
    the evolution operator keeps the [uOld] it was built with. *)
Theorem transient_run_makes_no_ConvergenceCheck
  (check : FE_Evolution -> Q -> Q -> Vector -> Q * FE_Evolution)
  (d : Driver) (E : Collaborators) (args : list Arg) (fuel : nat)
  (r : Ready) :
  setup d E args = inr r ->
  SteadyState (rd_hyp r) = false ->
  main d (with_ConvergenceCheck check E) args fuel = main d E args fuel /\
  forall k, uOld (st_evol (after E r k (rd_state r))) = [].
Proof.
  intros Hr Hs. split.
  - assert (Hr' : setup d (with_ConvergenceCheck check E) args = inr r)
      by exact Hr.
    unfold main. rewrite Hr, Hr'.
    rewrite (time_loop_without_check check d E r fuel Hs). reflexivity.
  - intro k.
    assert (Hk : st_evol (after E r k (rd_state r)) = st_evol (rd_state r)).
    { unfold after. induction k as [|k IH]; [reflexivity|].
      rewrite Nat.iter_succ.
      destruct (advance_without_check check E r
                  (Nat.iter k (advance E r) (rd_state r)) Hs) as [_ ->].
      exact IH. }
    rewrite Hk.
    destruct (setup_ready d E args r Hr)
      as (o & sv & _ & _ & _ & _ & _ & Hh & _ & _ & _ & _ & _ & _ & Hold & _).
    rewrite Hh in Hs. rewrite Hs in Hold. exact Hold.
Qed.

Lemma transient_run_makes_no_ConvergenceCheck_witness :
  main Serial
    (with_ConvergenceCheck (fun evol _ _ _ => (0, evol))
       (on_ring false true true step_data))
    [ArgTimeStep (1 # 2); ArgODESolver 1] 2
  = main Serial (on_ring false true true step_data)
      [ArgTimeStep (1 # 2); ArgODESolver 1] 2.
Proof.
  apply (transient_run_makes_no_ConvergenceCheck
           (fun evol _ _ _ => (0, evol)) Serial
           (on_ring false true true step_data)
           [ArgTimeStep (1 # 2); ArgODESolver 1] 2 _ eq_refl eq_refl).
Defined.

(** ** The mass difference *)

Lemma after_keeps_mass (E : Collaborators) (r : Ready) (st0 : LoopState)
  (n : nat) :
  SteadyState (rd_hyp r) = false ->
  (forall k, (k < n)%nat ->
     dot (rd_mass r) (fst (fst (step_of E r (after E r k st0))))
       == dot (rd_mass r) (st_u (after E r k st0))) ->
  forall k, (k <= n)%nat ->
            dot (rd_mass r) (st_u (after E r k st0))
              == dot (rd_mass r) (st_u st0).
Proof.
  intros Hs Hstep k. induction k as [|k IH]; intro Hk; [reflexivity|].
  rewrite <- IH by lia. rewrite <- (Hstep k) by lia.
  unfold after. rewrite Nat.iter_succ, (advance_transient E r _ Hs).
  reflexivity.
Qed.

(** A transient run in which every step of the integrator keeps the
    lumped-mass inner product of the state (and, in the parallel driver,
    in which the other ranks contribute the same mass at the start and at
    the end) reports a mass difference of exactly 0. *)
Theorem conservative_run_reports_zero (d : Driver) (E : Collaborators)
  (args : list Arg) (fuel : nat) (r : Ready) (pre : list Event)
  (st : LoopState) :
  setup d E args = inr r ->
  SteadyState (rd_hyp r) = false ->
  (forall k, (k < fuel)%nat ->
     dot (rd_mass r) (fst (fst (step_of E r (after E r k (rd_state r)))))
       == dot (rd_mass r) (st_u (after E r k (rd_state r)))) ->
  others E InitialMassSum == others E FinalMassSum ->
  time_loop d E r fuel (rd_out r) (rd_state r) = Completed pre st ->
  (exists rest,
     main d E args fuel =
       Exit 0 (pre ++
               say d (MassDifference
                        (Qabs (rd_InitialMass r - FinalMass_of d E r st) /
                         DomainSize_of d E r)) ++ rest)) /\
  Qabs (rd_InitialMass r - FinalMass_of d E r st) / DomainSize_of d E r == 0.
Proof.
  intros Hr Hs Hstep Hothers Hl. split.
  { unfold main. rewrite Hr, Hl. unfold finish. eexists. reflexivity. }
  destruct (time_loop_Completed d E r fuel _ _ _ _ Hl)
    as (k & Hk & Hst & _).
  assert (Hm := after_keeps_mass E r (rd_state r) fuel Hs Hstep k
                  ltac:(lia)).
  rewrite <- Hst in Hm.
  destruct (setup_ready d E args r Hr)
    as (o & sv & _ & _ & _ & _ & _ & Hh & Hmass & HI & Hu & _).
  rewrite Hu, <- Hh in Hm.
  assert (Hzero : rd_InitialMass r - FinalMass_of d E r st == 0).
  { unfold FinalMass_of. rewrite HI, <- Hmass, <- Hh. unfold global_sum.
    destruct d; rewrite Hm; [|rewrite Hothers]; ring. }
  rewrite Hzero. reflexivity.
Qed.

Lemma conservative_run_reports_zero_witness :
  exists r pre st,
    setup Serial (on_ring false true true step_data)
      [ArgTimeStep (1 # 2); ArgODESolver 1; ArgScheme 1] = inr r /\
    time_loop Serial (on_ring false true true step_data) r 2 (rd_out r)
      (rd_state r) = Completed pre st /\
    Qabs (rd_InitialMass r
          - FinalMass_of Serial (on_ring false true true step_data) r st) /
    DomainSize_of Serial (on_ring false true true step_data) r == 0.
Proof.
  eexists. eexists. eexists.
  split; [reflexivity|]. split; [reflexivity|].
  eapply (conservative_run_reports_zero Serial
            (on_ring false true true step_data)
            [ArgTimeStep (1 # 2); ArgODESolver 1; ArgScheme 1] 2).
  - reflexivity.
  - reflexivity.
  - intros [|[|k]] Hk; [vm_compute; reflexivity|vm_compute; reflexivity|lia].
  - reflexivity.
  - reflexivity.
Defined.

(** ** Why the time loop ends, and what it shows *)

(** The time loop ends for one of two reasons only: the time has reached
    [config.tFinal - 1e-8 * config.dt], or the run is steady-state seeking
    and the residual of the last iteration is below the tolerance, in which
    case [u] is the [uOld] of the operator. *)
Theorem loop_ends_for_two_reasons (d : Driver) (E : Collaborators)
  (r : Ready) (fuel : nat) (out : list Event) (st0 : LoopState)
  (pre : list Event) (st : LoopState) :
  time_loop d E r fuel out st0 = Completed pre st ->
  tFinal (config (rd_options r))
    - (1 # 100000000) * dt (config (rd_options r)) <= st_t st
  \/ (SteadyState (rd_hyp r) = true /\
      exists res,
        st_res st = Some res /\ res < tol /\
        st_u st = uOld (st_evol st)).
Proof.
  intro Hl.
  destruct (time_loop_Completed d E r fuel _ _ _ _ Hl)
    as (k & Hk & Hst & Hd & _).
  destruct k as [|k]; [lia|].
  unfold after in Hst. rewrite Nat.iter_succ in Hst.
  set (prev := Nat.iter k (advance E r) st0) in Hst. subst st.
  destruct (SteadyState (rd_hyp r)) eqn:Hs.
  - rewrite (advance_steady E r prev Hs) in Hd |- *.
    destruct (Qltb (fst (check_of E r prev)) tol) eqn:Hq.
    + right. split; [reflexivity|]. eexists. split; [reflexivity|].
      split; [apply Qltb_lt; exact Hq|reflexivity].
    + left. simpl in Hd |- *. apply Qle_bool_iff. exact Hd.
  - left. rewrite (advance_transient E r prev Hs) in Hd |- *.
    simpl in Hd |- *. apply Qle_bool_iff. exact Hd.
Qed.

Lemma loop_ends_for_two_reasons_witness :
  exists r pre st,
    setup Serial (on_ring true true true [1; 1; 1]) [ArgODESolver 1]
      = inr r /\
    time_loop Serial (on_ring true true true [1; 1; 1]) r 3 (rd_out r)
      (rd_state r) = Completed pre st /\
    (tFinal (config (rd_options r))
       - (1 # 100000000) * dt (config (rd_options r)) <= st_t st
     \/ (SteadyState (rd_hyp r) = true /\
         exists res,
           st_res st = Some res /\ res < tol /\
           st_u st = uOld (st_evol st))).
Proof.
  eexists. eexists. eexists.
  split; [reflexivity|].
  match goal with
  | |- ?A /\ _ => assert (Hl : A) by (vm_compute; reflexivity)
  end.
  split; [exact Hl|].
  exact (loop_ends_for_two_reasons _ _ _ _ _ _ _ _ Hl).
Defined.

Lemma show_residual (d : Driver) (E : Collaborators) (r : Ready)
  (st : LoopState) :
  forallb (residual_as_mode (SteadyState (rd_hyp r)))
    (show d r (advance E r st)) = true.
Proof.
  unfold show, say.
  destruct (SteadyState (rd_hyp r)) eqn:Hs.
  - rewrite (advance_steady E r st Hs).
    destruct (Qltb (fst (check_of E r st)) tol);
      destruct (root d); reflexivity.
  - destruct (root d); reflexivity.
Qed.

Lemma time_loop_residuals (d : Driver) (E : Collaborators) (r : Ready)
  (fuel : nat) :
  forall out st,
    exists more,
      loop_output (time_loop d E r fuel out st) = out ++ more /\
      forallb (residual_as_mode (SteadyState (rd_hyp r))) more = true.
Proof.
  induction fuel as [|fuel IH]; intros out st; cbn [time_loop].
  - exists []. rewrite app_nil_r. split; reflexivity.
  - destruct (report d r (advance E r st)) as [lines|] eqn:Hrep.
    + assert (Hlines : forallb (residual_as_mode (SteadyState (rd_hyp r)))
                         lines = true).
      { revert Hrep. unfold report.
        destruct (st_done (advance E r st)).
        - intro H. injection H as <-. apply show_residual.
        - destruct (VisSteps (config (rd_options r)) =? 0)%Z; [discriminate|].
          destruct (Z.rem (st_ti (advance E r st))
                      (VisSteps (config (rd_options r))) =? 0)%Z;
            intro H; injection H as <-; [apply show_residual|reflexivity]. }
      destruct (st_done (advance E r st)).
      * exists lines. split; [reflexivity|exact Hlines].
      * destruct (IH (out ++ lines) (advance E r st)) as (more & Hm & H3).
        exists (lines ++ more). rewrite app_assoc. split; [exact Hm|].
        rewrite forallb_app, Hlines, H3. reflexivity.
    + exists []. rewrite app_nil_r. split; reflexivity.
Qed.

(** The variable [res] is never shown before it is assigned: every time
    step line of a steady-state run carries the residual of a convergence
    check, and no time step line of a transient run carries a residual. *)
Theorem residual_is_shown_in_steady_state_only (d : Driver)
  (E : Collaborators) (args : list Arg) (fuel : nat) (r : Ready) :
  setup d E args = inr r ->
  forallb (residual_as_mode (SteadyState (rd_hyp r)))
    (output_of (main d E args fuel)) = true.
Proof.
  intro Hr. unfold main. rewrite Hr.
  destruct (setup_output d E args r Hr) as [n Hout].
  assert (Hrd : forallb (residual_as_mode (SteadyState (rd_hyp r)))
                  (rd_out r) = true).
  { rewrite Hout. unfold say.
    destruct (root d);
      destruct (negb (odeSolverType (config (rd_options r)) =? 1)%Z
                && SteadyState (rd_hyp r));
      destruct (FileOutput (rd_hyp r)); reflexivity. }
  destruct (time_loop_residuals d E r fuel (rd_out r) (rd_state r))
    as (more & Hm & Hq).
  destruct (time_loop d E r fuel (rd_out r) (rd_state r))
    as [pre st| pre | pre st']; simpl in Hm; subst pre; simpl output_of;
    rewrite ?forallb_app, Hrd, Hq; try reflexivity.
  unfold finish, say.
  destruct (root d);
    destruct (SolutionKnown (rd_hyp r) && FileOutput (rd_hyp r));
    destruct (FileOutput (rd_hyp r)); reflexivity.
Qed.

Lemma residual_is_shown_in_steady_state_only_witness :
  forallb (residual_as_mode true)
    (output_of (main Serial (on_ring true true true [1; 1; 1])
                  [ArgODESolver 1; ArgVisSteps 1] 3)) = true.
Proof.
  apply (residual_is_shown_in_steady_state_only Serial
           (on_ring true true true [1; 1; 1])
           [ArgODESolver 1; ArgVisSteps 1] 3 _ eq_refl).
Defined.

(** ** More about the command line *)

Lemma Parse_Serial_rejects (args : list Arg) (n : Z) :
  In (ArgParallelRefine n) args ->
  forall o, Parse Serial args o = None.
Proof.
  induction args as [|a rest IH]; intros Hin o; [destruct Hin|].
  simpl. destruct Hin as [->|Hin]; [reflexivity|].
  destruct (store Serial a o); [apply IH; exact Hin|reflexivity].
Qed.

(** The option [-pr] is registered by phypsys.cpp only: the serial driver
    takes a command line that holds it as a usage error and returns -1,
    and the parallel driver stores its value. *)
Theorem serial_driver_rejects_parallel_refine (E : Collaborators)
  (args : list Arg) (n : Z) (fuel : nat) :
  In (ArgParallelRefine n) args ->
  main Serial E args fuel = Exit (-1) [PrintUsage] /\
  forall myid o o',
    store (Parallel myid) (ArgParallelRefine n) o = Some o' ->
    prefinements o' = n.
Proof.
  intro Hin. split.
  - unfold main, setup. rewrite (Parse_Serial_rejects args n Hin).
    reflexivity.
  - intros myid o o' H. injection H as <-. reflexivity.
Qed.

Lemma serial_driver_rejects_parallel_refine_witness :
  main Serial (on_ring false true true step_data)
    [ArgRefine 2; ArgParallelRefine 1] 3 = Exit (-1) [PrintUsage].
Proof.
  apply (serial_driver_rejects_parallel_refine
           (on_ring false true true step_data)
           [ArgRefine 2; ArgParallelRefine 1] 1 3).
  right. left. reflexivity.
Defined.




